(** * Lock manager: a shallow embedding of [index.js] and of the
    [ResourceLock] model, with the properties of its five routes.

    Time values are milliseconds since the epoch ([Z]), as
    [Date.prototype.getTime] gives them.  A [Date] built from a time value
    outside +-8.64e15 ms is an Invalid Date ([Date_at]); a stored document
    holds the time values of its dates, and [ResourceLock.save] refuses a
    document with an Invalid Date before it inserts anything.  A request
    field that is missing and one that holds the empty string are both
    falsy: both are the empty string here.  [ttl_seconds] is an optional
    integer ([None] when the body has none); for an integer the sum
    [locked_at.getTime() + ttl_seconds * 1000] of the handler is exact in
    JavaScript's numbers whenever it is the time value of a valid date.

    The collection is the list of its documents in insertion order.  The
    unique index of the schema lives in [Mongo.insert]: it refuses a second
    document with a [resource_name] the collection already has.

    A handler is a computation in a state and exception monad over a
    [World]: the collection, the clock and a schedule that says, for each
    store call the handler awaits, whether the call is served undisturbed,
    throws, or is preceded by the writes of other requests.  The clock
    stands still while one request is served; it advances between
    requests ([Elapse]). *)

From Stdlib Require Import List String ZArith Bool Lia.
Import ListNotations.
Local Open Scope string_scope.
Local Open Scope list_scope.
Local Open Scope Z_scope.

(** ** The schema (models/ResourceLock) *)

Module ResourceLockSchema.

Record t : Type := mk
  { resource_name : string     (* String, required, unique *)
  ; process_id_str : string    (* String, required *)
  ; locked_at : Z              (* Date *)
  ; expires_at : option Z      (* Date, default null *)
  }.

End ResourceLockSchema.

Definition Lock : Type := ResourceLockSchema.t.
Definition Collection : Type := list Lock.

(** ** JavaScript dates *)

(** The largest time value of a [Date], in either direction. *)
Definition max_time : Z := 8640000000000000.

Definition is_time_value (ms : Z) : bool :=
  (- max_time <=? ms) && (ms <=? max_time).

(** A [Date] object: one that holds a time value, or Invalid Date. *)
Inductive JsDate : Type :=
| TimeValue (ms : Z)
| InvalidDate.

(** [new Date(ms)] *)
Definition Date_at (ms : Z) : JsDate :=
  if is_time_value ms then TimeValue ms else InvalidDate.

(** ** The collection, as MongoDB keeps it *)

Module Mongo.
Import ResourceLockSchema.

Definition named (name : string) (l : Lock) : bool :=
  String.eqb (resource_name l) name.

Definition owned (pid : string) (l : Lock) : bool :=
  String.eqb (process_id_str l) pid.

(** [findOne({resource_name})]: the first document that matches. *)
Definition lookup (name : string) (c : Collection) : option Lock :=
  List.find (named name) c.

(** [deleteOne({resource_name})]: removes the first document that matches,
    and nothing when none does. *)
Fixpoint remove (name : string) (c : Collection) : Collection :=
  match c with
  | [] => []
  | l :: c' => if named name l then c' else l :: remove name c'
  end.

(** The unique index on [resource_name]: an insert of a key that is
    present is refused (error E11000). *)
Definition insert (l : Lock) (c : Collection) : option Collection :=
  if existsb (named (resource_name l)) c then None else Some (c ++ [l]).

(** The index holds: no two documents share a [resource_name]. *)
Definition unique (c : Collection) : Prop :=
  NoDup (map resource_name c).

End Mongo.

(** ** What the rest of the system does around one request *)

(** A write of another request, as the store performs it. *)
Inductive Write : Type :=
| Save (l : Lock)            (* [save()] of a new document *)
| Delete (name : string).    (* [deleteOne({resource_name})] *)

(** Every call to the store is an [await]: the request is suspended there
    and other requests run.  One [Env] says what happens at one store call:
    nothing, the call throws a store error, or the writes of other requests
    land just before the call. *)
Inductive Env : Type :=
| Calm
| Outage
| Rival (ws : list Write).

Record World : Type := mkWorld
  { db : Collection        (* the locks collection *)
  ; clock : Z              (* what [new Date()] reads *)
  ; sched : list Env       (* the store calls to come; [[]] is calm for ever *)
  }.

(** What a handler can throw. *)
Inductive exn : Type :=
| DuplicateKey   (* a MongoServerError whose [code] is 11000 *)
| StoreDown      (* any other error of the driver *)
| ValidationError (* mongoose refuses the document: a path failed its cast *)
| TypeError.     (* reading a property of [null] *)

Definition code (e : exn) : option Z :=
  match e with
  | DuplicateKey => Some 11000
  | StoreDown => None
  | ValidationError => None
  | TypeError => None
  end.

(** ** A state and exception monad for the handlers *)

Definition M (A : Type) : Type := World -> (exn + A) * World.

Definition ret {A} (a : A) : M A := fun w => (inr a, w).

Definition throw {A} (e : exn) : M A := fun w => (inl e, w).

Definition bind {A B} (m : M A) (k : A -> M B) : M B :=
  fun w =>
    match m w with
    | (inl e, w') => (inl e, w')
    | (inr a, w') => k a w'
    end.

(** [try { body } catch (error) { handler }] *)
Definition try_catch {A} (body : M A) (handler : exn -> M A) : M A :=
  fun w =>
    match body w with
    | (inl e, w') => handler e w'
    | (inr a, w') => (inr a, w')
    end.

Notation "x <- m ;; k" := (bind m (fun x => k))
  (at level 61, m at next level, right associativity).
Notation "m ;;; k" := (bind m (fun _ => k))
  (at level 61, right associativity).

(** [for (const x of xs) { body }], the variables the body assigns being
    threaded through as [s]. *)
Fixpoint for_of {A S} (xs : list A) (body : A -> S -> M S) (s : S) : M S :=
  match xs with
  | [] => ret s
  | x :: xs' => s' <- body x s ;; for_of xs' body s'
  end.

(** [new Date()] *)
Definition new_Date : M Z := fun w => (inr (clock w), w).

(** A write of another request goes through the same index; a document
    that another request saves has passed the validation of its [save()]. *)
Definition write (x : Write) (c : Collection) : Collection :=
  match x with
  | Save l =>
      match Mongo.insert l c with
      | Some c' => c'
      | None => c
      end
  | Delete name => Mongo.remove name c
  end.

(** The effect of the environment on the collection at one store call;
    [None] when the call throws. *)
Definition disturb (e : Env) (c : Collection) : option Collection :=
  match e with
  | Calm => Some c
  | Outage => None
  | Rival ws => Some (fold_left (fun c x => write x c) ws c)
  end.

Definition next_env (s : list Env) : Env * list Env :=
  match s with
  | [] => (Calm, [])
  | e :: s' => (e, s')
  end.

(** One awaited store call. *)
Definition await {A} (op : Collection -> (exn + A) * Collection) : M A :=
  fun w =>
    let (e, s) := next_env (sched w) in
    match disturb e (db w) with
    | None => (inl StoreDown, mkWorld (db w) (clock w) s)
    | Some c =>
        let (r, c') := op c in
        (r, mkWorld c' (clock w) s)
    end.

(** ** The model (mongoose.model('ResourceLock', ResourceLockSchema)) *)

Module ResourceLock.

Definition findOne (resource_name : string) : M (option Lock) :=
  await (fun c => (inr (Mongo.lookup resource_name c), c)).

Definition deleteOne (resource_name : string) : M unit :=
  await (fun c => (inr tt, Mongo.remove resource_name c)).

(** [new ResourceLock({...})]: a document that is not stored yet. *)
Record doc : Type := new
  { resource_name : string
  ; process_id_str : string
  ; locked_at : JsDate
  ; expires_at : option JsDate   (* [None] is null *)
  }.

(** The validation that [save()] runs first: each [Date] path is cast, and
    an Invalid Date fails the cast.  [resource_name] and [process_id_str]
    are non-empty strings when the handler builds a document. *)
Definition validate (d : doc) : option Lock :=
  match locked_at d, expires_at d with
  | TimeValue t, None =>
      Some (ResourceLockSchema.mk (resource_name d) (process_id_str d) t None)
  | TimeValue t, Some (TimeValue e) =>
      Some (ResourceLockSchema.mk (resource_name d) (process_id_str d) t
                                  (Some e))
  | _, _ => None
  end.

(** The insert that [save()] sends to the store for a valid document. *)
Definition insertOne (l : Lock) : M unit :=
  await (fun c =>
           match Mongo.insert l c with
           | Some c' => (inr tt, c')
           | None => (inl DuplicateKey, c)
           end).

(** [newLock.save()]: the document is validated, then inserted; a document
    that fails validation makes no store call. *)
Definition save (newLock : doc) : M unit :=
  match validate newLock with
  | Some l => insertOne l
  | None => throw ValidationError
  end.

(** [find()] *)
Definition find : M (list Lock) :=
  await (fun c => (inr c, c)).

(** [find({process_id_str})] *)
Definition find_by (process_id_str : string) : M (list Lock) :=
  await (fun c => (inr (List.filter (Mongo.owned process_id_str) c), c)).

End ResourceLock.

Arguments ResourceLock.save : simpl never.
Arguments Date_at : simpl never.

(** ** The responses of the routes *)

Inductive Response : Type :=
| BadRequest                                      (* 400 {error} *)
| Acquired (resource_name process_id_str : string)  (* 200 status: 'acquired' *)
| Denied (resource_name locked_by : string)       (* 409 status: 'denied' *)
| NotLocked (resource_name : string)          (* 404 'resource_not_locked' *)
| NotLockedByProcess (resource_name : string) (* 403 'not_locked_by_process' *)
| Released (resource_name : string)               (* 200 status: 'released' *)
| IsUnlocked (resource_name : string)             (* 200 is_locked: false *)
| IsLocked (resource_name locked_by : string) (locked_at : Z)
                                                  (* 200 is_locked: true *)
| AllLocked (validLocks : list (string * string * Z))   (* 200 [...] *)
| ProcessLocks (validLocks : list (string * Z))   (* 200 [...] *)
| InternalServerError.                            (* 500 {error} *)

Definition http_status (r : Response) : Z :=
  match r with
  | BadRequest => 400
  | Denied _ _ => 409
  | NotLocked _ => 404
  | NotLockedByProcess _ => 403
  | InternalServerError => 500
  | _ => 200
  end.

(** ** JavaScript truthiness of the values the handlers test *)

(** [!s] for a string (or a missing field). *)
Definition falsy (s : string) : bool := String.eqb s EmptyString.

(** [ttl_seconds ? ... : ...]: a missing value and the number 0 are falsy. *)
Definition ttl_given (ttl_seconds : option Z) : option Z :=
  match ttl_seconds with
  | None => None
  | Some t => if t =? 0 then None else Some t
  end.

(** [lock.expires_at && lock.expires_at < currentTime]: [null] is falsy, a
    [Date] is truthy. *)
Definition expired (lock : Lock) (currentTime : Z) : bool :=
  match ResourceLockSchema.expires_at lock with
  | None => false
  | Some e => e <? currentTime
  end.

(** ** The routes of index.js *)

(** POST /locks/request *)
Definition post_locks_request
    (resource_name process_id_str : string) (ttl_seconds : option Z)
  : M Response :=
  if falsy resource_name || falsy process_id_str then ret BadRequest
  else
    try_catch
      (existingLock <- ResourceLock.findOne resource_name ;;
       existingLock <-
         match existingLock with
         | Some lock =>
             currentTime <- new_Date ;;
             if expired lock currentTime
             then ResourceLock.deleteOne resource_name ;;; ret None
             else ret (Some lock)
         | None => ret None
         end ;;
       match existingLock with
       | Some lock =>
           ret (Denied resource_name (ResourceLockSchema.process_id_str lock))
       | None =>
           locked_at <- new_Date ;;
           let expires_at :=
             match ttl_given ttl_seconds with
             | Some t => Some (Date_at (locked_at + t * 1000))
             | None => None
             end in
           ResourceLock.save
             (ResourceLock.new resource_name process_id_str
                               (Date_at locked_at) expires_at) ;;;
           ret (Acquired resource_name process_id_str)
       end)
      (fun error =>
         if match code error with Some c => c =? 11000 | None => false end
         then
           existingLock <- ResourceLock.findOne resource_name ;;
           match existingLock with
           | Some lock =>
               ret (Denied resource_name
                           (ResourceLockSchema.process_id_str lock))
           | None => throw TypeError
           end
         else ret InternalServerError).

(** POST /locks/release *)
Definition post_locks_release (resource_name process_id_str : string)
  : M Response :=
  if falsy resource_name || falsy process_id_str then ret BadRequest
  else
    try_catch
      (existingLock <- ResourceLock.findOne resource_name ;;
       match existingLock with
       | None => ret (NotLocked resource_name)
       | Some lock =>
           if negb (String.eqb (ResourceLockSchema.process_id_str lock)
                               process_id_str)
           then ret (NotLockedByProcess resource_name)
           else
             ResourceLock.deleteOne resource_name ;;;
             ret (Released resource_name)
       end)
      (fun error => ret InternalServerError).

(** GET /locks/status/:resource_name *)
Definition get_locks_status (resource_name : string) : M Response :=
  try_catch
    (lock <- ResourceLock.findOne resource_name ;;
     match lock with
     | None => ret (IsUnlocked resource_name)
     | Some lock =>
         currentTime <- new_Date ;;
         if expired lock currentTime
         then
           ResourceLock.deleteOne resource_name ;;;
           ret (IsUnlocked resource_name)
         else
           ret (IsLocked resource_name
                         (ResourceLockSchema.process_id_str lock)
                         (ResourceLockSchema.locked_at lock))
     end)
    (fun error => ret InternalServerError).

(** The loop that both listings run over the documents they found:
    an expired one is deleted, another is pushed on [validLocks]. *)
Definition filter_out_expired {T} (entry : Lock -> T) (currentTime : Z)
    (locks : list Lock) : M (list T) :=
  for_of locks
    (fun lock validLocks =>
       if expired lock currentTime
       then
         ResourceLock.deleteOne (ResourceLockSchema.resource_name lock) ;;;
         ret validLocks
       else ret (validLocks ++ [entry lock]))
    [].

Definition all_entry (lock : Lock) : string * string * Z :=
  (ResourceLockSchema.resource_name lock,
   ResourceLockSchema.process_id_str lock,
   ResourceLockSchema.locked_at lock).

Definition process_entry (lock : Lock) : string * Z :=
  (ResourceLockSchema.resource_name lock, ResourceLockSchema.locked_at lock).

(** GET /locks/all-locked *)
Definition get_locks_all_locked : M Response :=
  try_catch
    (currentTime <- new_Date ;;
     locks <- ResourceLock.find ;;
     validLocks <- filter_out_expired all_entry currentTime locks ;;
     ret (AllLocked validLocks))
    (fun error => ret InternalServerError).

(** GET /locks/process/:process_id_str *)
Definition get_locks_process (process_id_str : string) : M Response :=
  try_catch
    (currentTime <- new_Date ;;
     locks <- ResourceLock.find_by process_id_str ;;
     validLocks <- filter_out_expired process_entry currentTime locks ;;
     ret (ProcessLocks validLocks))
    (fun error => ret InternalServerError).

(** ** Requests one after the other *)

Inductive Request : Type :=
| Acquire (resource_name process_id_str : string) (ttl_seconds : option Z)
| Release (resource_name process_id_str : string)
| Status (resource_name : string)
| ListAll
| ListByHolder (process_id_str : string).

Definition route (r : Request) : M Response :=
  match r with
  | Acquire resource_name process_id_str ttl_seconds =>
      post_locks_request resource_name process_id_str ttl_seconds
  | Release resource_name process_id_str =>
      post_locks_release resource_name process_id_str
  | Status resource_name => get_locks_status resource_name
  | ListAll => get_locks_all_locked
  | ListByHolder process_id_str => get_locks_process process_id_str
  end.

(** The server handles request [r] while the environment does [env]. *)
Definition serve (r : Request) (env : list Env) (w : World)
  : (exn + Response) * World :=
  route r (mkWorld (db w) (clock w) env).

(** What happens to the server: a request is handled, or time passes. *)
Inductive Event : Type :=
| Call (r : Request) (env : list Env)
| Elapse (ms : N).

Definition happen (ev : Event) (w : World) : World :=
  match ev with
  | Call r env => snd (serve r env w)
  | Elapse ms => mkWorld (db w) (clock w + Z.of_N ms) (sched w)
  end.

Definition run (evs : list Event) (w : World) : World :=
  fold_left (fun w ev => happen ev w) evs w.

(** ** Schedules *)

(** No store call is disturbed. *)
Definition calm (s : list Env) : Prop := Forall (fun e => e = Calm) s.

(** No other request writes meanwhile; store calls may fail. *)
Definition solo (s : list Env) : Prop :=
  Forall (fun e => e = Calm \/ e = Outage) s.

(** ** Liveness of a lease *)

(** As the routes decide it: the lease has no expiry, or its expiry is not
    before the current time. *)
Definition live (l : Lock) (now : Z) : Prop :=
  match ResourceLockSchema.expires_at l with
  | None => True
  | Some e => now <= e
  end.

(** As the data model words it: [expires_at] is absent or [expires_at > now]. *)
Definition live_in_words (l : Lock) (now : Z) : Prop :=
  match ResourceLockSchema.expires_at l with
  | None => True
  | Some e => e > now
  end.

(** The documents of a collection whose [resource_name] is not [name]. *)
Definition others (name : string) (c : Collection) : Collection :=
  List.filter (fun l => negb (Mongo.named name l)) c.

(** ** The vocabulary of the properties *)

(** [hoare P m Q]: run from a world in [P], [m] ends (it always does) with
    a result and a world in [Q]. *)
Definition hoare {A} (P : World -> Prop) (m : M A)
    (Q : exn + A -> World -> Prop) : Prop :=
  forall w, P w -> Q (fst (m w)) (snd (m w)).

(** [inv I m]: [m] keeps [I], whatever it returns or throws. *)
Definition inv {A} (I : World -> Prop) (m : M A) : Prop :=
  hoare I m (fun _ w => I w).

(** The worlds at time [t] whose collection is in [J] and whose schedule
    only holds what [ok] allows. *)
Definition during (ok : Env -> Prop) (J : Collection -> Prop) (t : Z)
    (w : World) : Prop :=
  Forall ok (sched w) /\ clock w = t /\ J (db w).

Definition any_env (e : Env) : Prop := True.

Definition solo_env (e : Env) : Prop := e = Calm \/ e = Outage.

Definition anything (c : Collection) : Prop := True.

(** The time values of the document that a request builds at time [t]:
    the lock that is stored when the request is answered 'acquired'.  It
    can be stored only when it is [storable]. *)
Definition new_lock (name pid : string) (ttl : option Z) (t : Z) : Lock :=
  ResourceLockSchema.mk name pid t
    match ttl_given ttl with
    | Some s => Some (t + s * 1000)
    | None => None
    end.

(** Both dates of the lock are time values of valid dates. *)
Definition storable (l : Lock) : bool :=
  is_time_value (ResourceLockSchema.locked_at l) &&
  match ResourceLockSchema.expires_at l with
  | Some e => is_time_value e
  | None => true
  end.

(** The collections in which the lease [l] is the document of [R]. *)
Definition holding (R : string) (l : Lock) (c : Collection) : Prop :=
  Mongo.unique c /\ Mongo.lookup R c = Some l.

(** The events that neither release the lease of [A] on [R] nor let
    another request write while one is served. *)
Definition leaves_lease (R A : string) (ev : Event) : Prop :=
  match ev with
  | Call r env => solo env /\ r <> Release R A
  | Elapse _ => True
  end.

(** The deletions that a listing performs, one per expired document, by
    name. *)
Definition sweep (xs : list Lock) (c : Collection) : Collection :=
  fold_left (fun c x => Mongo.remove (ResourceLockSchema.resource_name x) c)
            xs c.

Definition is_expired (now : Z) (x : Lock) : bool := expired x now.
Definition is_live (now : Z) (x : Lock) : bool := negb (expired x now).

(** The answer [r] shows the lease [l] as a lock that is held. *)
Definition reports (l : Lock) (r : exn + Response) : Prop :=
  match r with
  | inr (Denied name locked_by) =>
      name = ResourceLockSchema.resource_name l /\
      locked_by = ResourceLockSchema.process_id_str l
  | inr (IsLocked name locked_by locked_at) =>
      name = ResourceLockSchema.resource_name l /\
      locked_by = ResourceLockSchema.process_id_str l /\
      locked_at = ResourceLockSchema.locked_at l
  | inr (AllLocked validLocks) => In (all_entry l) validLocks
  | inr (ProcessLocks validLocks) => In (process_entry l) validLocks
  | _ => False
  end.

(** The four routes that look at a lease show it exactly when [liveness]
    says that it is live. *)
Definition shown_iff (liveness : Lock -> Z -> Prop)
    (B : string) (ttl : option Z) (l : Lock) (w : World) : Prop :=
  let R := ResourceLockSchema.resource_name l in
  let A := ResourceLockSchema.process_id_str l in
  (reports l (fst (post_locks_request R B ttl w)) <-> liveness l (clock w)) /\
  (reports l (fst (get_locks_status R w)) <-> liveness l (clock w)) /\
  (reports l (fst (get_locks_all_locked w)) <-> liveness l (clock w)) /\
  (reports l (fst (get_locks_process A w)) <-> liveness l (clock w)).

(** The handler sent a response: its promise did not reject. *)
Definition answered {A} (r : exn + A) : Prop :=
  match r with
  | inr _ => True
  | inl _ => False
  end.

(** The requests whose route never calls [save]. *)
Definition never_saves (r : Request) : Prop :=
  match r with
  | Acquire _ _ _ => False
  | _ => True
  end.

(** The documents that [process_id_str] does not hold. *)
Definition of_others (pid : string) (c : Collection) : Collection :=
  List.filter (fun l => negb (Mongo.owned pid l)) c.

(** The requests whose fields pass the validation of their route. *)
Definition well_formed (r : Request) : Prop :=
  match r with
  | Acquire name pid _ | Release name pid =>
      name <> EmptyString /\ pid <> EmptyString
  | _ => True
  end.

(** * Properties *)

(** ** The collection *)

Section CollectionFacts.
Import ResourceLockSchema.

Lemma live_iff_not_expired (l : Lock) (now : Z) :
  live l now <-> expired l now = false.
Proof.
  unfold live, expired. destruct (expires_at l) as [e|].
  - rewrite Z.ltb_ge. tauto.
  - tauto.
Qed.

Lemma named_iff (name : string) (l : Lock) :
  Mongo.named name l = true <-> resource_name l = name.
Proof. unfold Mongo.named. apply String.eqb_eq. Qed.

Lemma lookup_some (name : string) (c : Collection) (l : Lock) :
  Mongo.lookup name c = Some l -> In l c /\ resource_name l = name.
Proof.
  unfold Mongo.lookup. intros H. apply find_some in H.
  destruct H as [Hin Hn]. split; [exact Hin | now apply named_iff].
Qed.

Lemma lookup_none (name : string) (c : Collection) :
  Mongo.lookup name c = None <-> existsb (Mongo.named name) c = false.
Proof.
  unfold Mongo.lookup. induction c as [|l c IH]; simpl.
  - tauto.
  - destruct (Mongo.named name l); simpl; [split; discriminate | exact IH].
Qed.

Lemma lookup_not_in (name : string) (c : Collection) :
  ~ In name (map resource_name c) -> Mongo.lookup name c = None.
Proof.
  unfold Mongo.lookup. induction c as [|l c IH]; simpl; intros H.
  - reflexivity.
  - destruct (Mongo.named name l) eqn:E.
    + apply named_iff in E. tauto.
    + apply IH. tauto.
Qed.

Lemma remove_absent (name : string) (c : Collection) :
  Mongo.lookup name c = None -> Mongo.remove name c = c.
Proof.
  unfold Mongo.lookup. induction c as [|l c IH]; simpl.
  - reflexivity.
  - destruct (Mongo.named name l); [discriminate |].
    intros H. now rewrite IH.
Qed.

Lemma remove_incl (name : string) (c : Collection) (l : Lock) :
  In l (Mongo.remove name c) -> In l c.
Proof.
  induction c as [|x c IH]; simpl; [tauto |].
  destruct (Mongo.named name x); simpl; tauto.
Qed.

Lemma others_remove (name : string) (c : Collection) :
  others name (Mongo.remove name c) = others name c.
Proof.
  unfold others. induction c as [|l c IH]; simpl; [reflexivity |].
  destruct (Mongo.named name l) eqn:E; simpl.
  - reflexivity.
  - rewrite E. simpl. now rewrite IH.
Qed.

Lemma others_insert (l : Lock) (c c' : Collection) :
  Mongo.insert l c = Some c' ->
  others (resource_name l) c' = others (resource_name l) c.
Proof.
  unfold Mongo.insert, others.
  destruct (existsb _ c); [discriminate |].
  intros H. injection H as <-. rewrite filter_app. simpl.
  unfold Mongo.named at 2. rewrite String.eqb_refl. simpl.
  apply app_nil_r.
Qed.

Lemma lookup_others (name other : string) (c : Collection) :
  name <> other ->
  Mongo.lookup name (others other c) = Mongo.lookup name c.
Proof.
  intros Hne. unfold Mongo.lookup, others.
  induction c as [|l c IH]; simpl; [reflexivity |].
  destruct (Mongo.named other l) eqn:Eo; simpl.
  - destruct (Mongo.named name l) eqn:En; [| exact IH].
    apply named_iff in Eo. apply named_iff in En. congruence.
  - destruct (Mongo.named name l); [reflexivity | exact IH].
Qed.

Lemma lookup_remove_other (name other : string) (c : Collection) :
  name <> other ->
  Mongo.lookup name (Mongo.remove other c) = Mongo.lookup name c.
Proof.
  intros Hne.
  rewrite <- (lookup_others name other (Mongo.remove other c) Hne).
  rewrite others_remove. now apply lookup_others.
Qed.

Lemma unique_remove (name : string) (c : Collection) :
  Mongo.unique c -> Mongo.unique (Mongo.remove name c).
Proof.
  unfold Mongo.unique. induction c as [|l c IH]; simpl; intros H.
  - exact H.
  - inversion H as [|? ? Hnotin Hnd]; subst.
    destruct (Mongo.named name l); [exact Hnd |].
    simpl. constructor; [| now apply IH].
    intros Hin. apply Hnotin. apply in_map_iff in Hin.
    destruct Hin as [x [Hx Hin]]. apply in_map_iff.
    exists x. split; [exact Hx | now apply remove_incl in Hin].
Qed.

Lemma unique_insert (l : Lock) (c c' : Collection) :
  Mongo.insert l c = Some c' -> Mongo.unique c -> Mongo.unique c'.
Proof.
  unfold Mongo.insert, Mongo.unique.
  destruct (existsb _ c) eqn:E; [discriminate |].
  intros H Hu. injection H as <-.
  rewrite map_app. simpl.
  apply NoDup_app; [exact Hu | repeat constructor; simpl; tauto | ].
  intros n Hin [<- | []].
  apply in_map_iff in Hin. destruct Hin as [x [Hx Hin]].
  assert (existsb (Mongo.named (resource_name l)) c = true) as Ht.
  { apply existsb_exists. exists x. split; [exact Hin |].
    now apply named_iff. }
  congruence.
Qed.

Lemma lookup_insert (l : Lock) (c c' : Collection) :
  Mongo.insert l c = Some c' -> Mongo.lookup (resource_name l) c' = Some l.
Proof.
  unfold Mongo.insert.
  destruct (existsb _ c) eqn:E; [discriminate |].
  intros H. injection H as <-.
  apply lookup_none in E. revert E. unfold Mongo.lookup.
  induction c as [|x c IH]; simpl.
  - intros _. unfold Mongo.named. now rewrite String.eqb_refl.
  - destruct (Mongo.named (resource_name l) x); [discriminate | exact IH].
Qed.

Lemma insert_absent (l : Lock) (c : Collection) :
  Mongo.lookup (resource_name l) c = None ->
  Mongo.insert l c = Some (c ++ [l]).
Proof.
  intros H. apply lookup_none in H. unfold Mongo.insert. now rewrite H.
Qed.

Lemma insert_present (l x : Lock) (c : Collection) :
  Mongo.lookup (resource_name l) c = Some x -> Mongo.insert l c = None.
Proof.
  intros H. unfold Mongo.insert.
  destruct (existsb _ c) eqn:E; [reflexivity |].
  apply lookup_none in E. congruence.
Qed.

(** Under the index a document is found by its name. *)
Lemma unique_lookup (c : Collection) (l : Lock) :
  Mongo.unique c -> In l c -> Mongo.lookup (resource_name l) c = Some l.
Proof.
  unfold Mongo.unique, Mongo.lookup.
  induction c as [|x c IH]; simpl; intros Hu Hin; [tauto |].
  inversion Hu as [|? ? Hnotin Hnd]; subst.
  destruct Hin as [-> | Hin].
  - unfold Mongo.named. now rewrite String.eqb_refl.
  - destruct (Mongo.named (resource_name l) x) eqn:E.
    + apply named_iff in E. exfalso. apply Hnotin.
      rewrite E. now apply in_map.
    + now apply IH.
Qed.

Lemma unique_lookup_remove (name : string) (c : Collection) :
  Mongo.unique c -> Mongo.lookup name (Mongo.remove name c) = None.
Proof.
  unfold Mongo.unique.
  induction c as [|x c IH]; simpl; intros Hu; [reflexivity |].
  inversion Hu as [|? ? Hnotin Hnd]; subst.
  destruct (Mongo.named name x) eqn:E.
  - apply named_iff in E. subst. now apply lookup_not_in.
  - unfold Mongo.lookup. simpl. rewrite E. now apply IH.
Qed.

End CollectionFacts.

(** ** Validation of a new document *)

Lemma validate_name (d : ResourceLock.doc) (l : Lock) :
  ResourceLock.validate d = Some l ->
  ResourceLockSchema.resource_name l = ResourceLock.resource_name d.
Proof.
  unfold ResourceLock.validate.
  destruct (ResourceLock.locked_at d) as [t|]; [| discriminate].
  destruct (ResourceLock.expires_at d) as [[e|]|];
    try discriminate; now intros [= <-].
Qed.

(** The document that the request route builds is valid exactly when the
    time values of its dates are those of valid dates, and is then stored
    with these values. *)
Lemma validate_new (name pid : string) (ttl : option Z) (t : Z) :
  ResourceLock.validate
    (ResourceLock.new name pid (Date_at t)
       match ttl_given ttl with
       | Some s => Some (Date_at (t + s * 1000))
       | None => None
       end)
  = if storable (new_lock name pid ttl t)
    then Some (new_lock name pid ttl t)
    else None.
Proof.
  unfold ResourceLock.validate, storable, new_lock, Date_at.
  cbn [ResourceLock.locked_at ResourceLock.expires_at
       ResourceLock.resource_name ResourceLock.process_id_str
       ResourceLockSchema.locked_at ResourceLockSchema.expires_at].
  destruct (is_time_value t); [| reflexivity].
  destruct (ttl_given ttl) as [s|]; [| reflexivity].
  destruct (is_time_value (t + s * 1000)); reflexivity.
Qed.

Lemma save_new (name pid : string) (ttl : option Z) (t : Z) :
  ResourceLock.save
    (ResourceLock.new name pid (Date_at t)
       match ttl_given ttl with
       | Some s => Some (Date_at (t + s * 1000))
       | None => None
       end)
  = if storable (new_lock name pid ttl t)
    then ResourceLock.insertOne (new_lock name pid ttl t)
    else throw ValidationError.
Proof.
  unfold ResourceLock.save. rewrite validate_new.
  now destruct (storable (new_lock name pid ttl t)).
Qed.

(** ** A program logic for the handlers *)

Section Rules.
Context {A B : Type}.

Lemma hoare_ret (P : World -> Prop) (a : A) (Q : exn + A -> World -> Prop) :
  (forall w, P w -> Q (inr a) w) -> hoare P (ret a) Q.
Proof. intros H w Hw. now apply H. Qed.

Lemma hoare_throw (P : World -> Prop) (e : exn)
    (Q : exn + A -> World -> Prop) :
  (forall w, P w -> Q (inl e) w) -> hoare P (throw e) Q.
Proof. intros H w Hw. now apply H. Qed.

Lemma hoare_bind (P : World -> Prop) (m : M A) (k : A -> M B)
    (Mid : A -> World -> Prop) (Q : exn + B -> World -> Prop) :
  hoare P m (fun r w => match r with
                        | inl e => Q (inl e) w
                        | inr a => Mid a w
                        end) ->
  (forall a, hoare (Mid a) (k a) Q) ->
  hoare P (bind m k) Q.
Proof.
  intros Hm Hk w Hw. specialize (Hm w Hw). unfold bind.
  destruct (m w) as [[e|a] w']; simpl in *.
  - exact Hm.
  - now apply Hk.
Qed.

Lemma hoare_try_catch (P : World -> Prop) (body : M A)
    (handler : exn -> M A)
    (Mid : exn -> World -> Prop) (Q : exn + A -> World -> Prop) :
  hoare P body (fun r w => match r with
                           | inl e => Mid e w
                           | inr a => Q (inr a) w
                           end) ->
  (forall e, hoare (Mid e) (handler e) Q) ->
  hoare P (try_catch body handler) Q.
Proof.
  intros Hb Hh w Hw. specialize (Hb w Hw). unfold try_catch.
  destruct (body w) as [[e|a] w']; simpl in *.
  - now apply Hh.
  - exact Hb.
Qed.

Lemma hoare_weaken (P P' : World -> Prop) (m : M A)
    (Q Q' : exn + A -> World -> Prop) :
  hoare P' m Q' ->
  (forall w, P w -> P' w) ->
  (forall r w, Q' r w -> Q r w) ->
  hoare P m Q.
Proof. intros H HP HQ w Hw. apply HQ, H, HP, Hw. Qed.

Lemma inv_ret (I : World -> Prop) (a : A) : inv I (ret a).
Proof. now apply hoare_ret. Qed.

Lemma inv_throw (I : World -> Prop) (e : exn) : inv I (@throw A e).
Proof. now apply hoare_throw. Qed.

Lemma inv_bind (I : World -> Prop) (m : M A) (k : A -> M B) :
  inv I m -> (forall a, inv I (k a)) -> inv I (bind m k).
Proof.
  intros Hm Hk. apply hoare_bind with (Mid := fun _ w => I w).
  - intros w Hw. specialize (Hm w Hw). now destruct (fst (m w)).
  - exact Hk.
Qed.

Lemma inv_try_catch (I : World -> Prop) (body : M A)
    (handler : exn -> M A) :
  inv I body -> (forall e, inv I (handler e)) ->
  inv I (try_catch body handler).
Proof.
  intros Hb Hh. apply hoare_try_catch with (Mid := fun _ w => I w).
  - intros w Hw. specialize (Hb w Hw). now destruct (fst (body w)).
  - exact Hh.
Qed.

End Rules.

(** A loop keeps what each of its turns keeps. *)
Lemma inv_for_of {A B} (I : World -> Prop) (xs : list A)
    (body : A -> B -> M B) (s : B) :
  (forall x s', In x xs -> inv I (body x s')) ->
  inv I (for_of xs body s).
Proof.
  revert s. induction xs as [|x xs IH]; intros s H; simpl.
  - apply inv_ret.
  - apply inv_bind.
    + apply H. now left.
    + intros s'. apply IH. intros y s'' Hy. apply H. now right.
Qed.

Lemma inv_new_Date (I : World -> Prop) : inv I new_Date.
Proof. intros w Hw. exact Hw. Qed.

(** ** Store calls under an invariant of the collection *)

Section StoreCalls.
(** What the environment may do at a store call, and a property of the
    collection that it keeps. *)
Variable ok : Env -> Prop.
Variable J : Collection -> Prop.
Hypothesis env_keeps :
  forall e c c', ok e -> J c -> disturb e c = Some c' -> J c'.
Hypothesis ok_Calm : ok Calm.

Lemma next_env_ok (s : list Env) :
  Forall ok s -> ok (fst (next_env s)) /\ Forall ok (snd (next_env s)).
Proof.
  intros H. destruct s as [|e s]; simpl.
  - split; [exact ok_Calm | constructor].
  - inversion H; subst. now split.
Qed.

Lemma hoare_await {A} (t : Z)
    (op : Collection -> (exn + A) * Collection)
    (Q : exn + A -> Collection -> Prop) :
  (forall c, J c -> Q (fst (op c)) (snd (op c)) /\ J (snd (op c))) ->
  (forall c, J c -> Q (inl StoreDown) c) ->
  hoare (during ok J t) (await op)
        (fun r w => during ok J t w /\ Q r (db w)).
Proof.
  intros Hop Hdown [c t' s] (Hs & Ht & Hc). simpl in *. subst t'.
  unfold await. simpl.
  destruct (next_env_ok s Hs) as [He Hs'].
  destruct (next_env s) as [e s']. simpl in *.
  destruct (disturb e c) as [c'|] eqn:Ed.
  - specialize (env_keeps e c c' He Hc Ed).
    destruct (Hop c' env_keeps) as [HQ HJ].
    destruct (op c') as [r c'']. simpl in *.
    unfold during. simpl. tauto.
  - unfold during. simpl. split; [tauto | now apply Hdown].
Qed.

Lemma inv_await {A} (t : Z) (op : Collection -> (exn + A) * Collection) :
  (forall c, J c -> J (snd (op c))) -> inv (during ok J t) (await op).
Proof.
  intros Hop w Hw.
  apply (hoare_await t op (fun _ _ => True)); [| trivial | exact Hw].
  intros c Hc. split; [trivial | now apply Hop].
Qed.

(** A read returns what the collection holds when the call is served. *)
Lemma hoare_findOne (t : Z) (name : string) :
  hoare (during ok J t) (ResourceLock.findOne name)
        (fun r w => during ok J t w /\
                    (r = inl StoreDown \/
                     r = inr (Mongo.lookup name (db w)))).
Proof.
  apply (hoare_await t _
           (fun r c => r = inl StoreDown \/ r = inr (Mongo.lookup name c))).
  - intros c Hc. simpl. tauto.
  - intros c Hc. tauto.
Qed.

Lemma hoare_find (t : Z) :
  hoare (during ok J t) ResourceLock.find
        (fun r w => during ok J t w /\ (r = inl StoreDown \/ r = inr (db w))).
Proof.
  apply (hoare_await t _ (fun r c => r = inl StoreDown \/ r = inr c)).
  - intros c Hc. simpl. tauto.
  - intros c Hc. tauto.
Qed.

Lemma hoare_find_by (t : Z) (pid : string) :
  hoare (during ok J t) (ResourceLock.find_by pid)
        (fun r w => during ok J t w /\
                    (r = inl StoreDown \/
                     r = inr (List.filter (Mongo.owned pid) (db w)))).
Proof.
  apply (hoare_await t _
           (fun r c => r = inl StoreDown \/
                       r = inr (List.filter (Mongo.owned pid) c))).
  - intros c Hc. simpl. tauto.
  - intros c Hc. tauto.
Qed.

Lemma inv_findOne (t : Z) (name : string) :
  inv (during ok J t) (ResourceLock.findOne name).
Proof. apply inv_await. trivial. Qed.

Lemma inv_deleteOne (t : Z) (name : string) :
  (forall c, J c -> J (Mongo.remove name c)) ->
  inv (during ok J t) (ResourceLock.deleteOne name).
Proof. intros H. apply inv_await. exact H. Qed.

Lemma inv_insertOne (t : Z) (l : Lock) :
  (forall c c', J c -> Mongo.insert l c = Some c' -> J c') ->
  inv (during ok J t) (ResourceLock.insertOne l).
Proof.
  intros H. apply inv_await. intros c Hc.
  destruct (Mongo.insert l c) as [c'|] eqn:E; simpl.
  - now apply (H c).
  - exact Hc.
Qed.

Lemma inv_save (t : Z) (d : ResourceLock.doc) :
  (forall l c c', ResourceLock.validate d = Some l ->
                  J c -> Mongo.insert l c = Some c' -> J c') ->
  inv (during ok J t) (ResourceLock.save d).
Proof.
  intros H. unfold ResourceLock.save.
  destruct (ResourceLock.validate d) as [l|] eqn:Ev.
  - apply inv_insertOne. intros c c'. now apply H.
  - apply inv_throw.
Qed.

End StoreCalls.

(** ** Every route keeps an invariant that every store call keeps *)

Ltac inv_walk :=
  repeat match goal with
         | |- forall _, _ => intro
         | |- inv _ (ret _) => apply inv_ret
         | |- inv _ (throw _) => apply inv_throw
         | |- inv _ new_Date => apply inv_new_Date
         | |- inv _ (bind _ _) => apply inv_bind
         | |- inv _ (try_catch _ _) => apply inv_try_catch
         | |- inv _ (if ?b then _ else _) => destruct b
         | |- inv _ (match ?x with _ => _ end) => destruct x
         end.

Section AnyInvariant.
Variable ok : Env -> Prop.
Variable J : Collection -> Prop.
Hypothesis env_keeps :
  forall e c c', ok e -> J c -> disturb e c = Some c' -> J c'.
Hypothesis ok_Calm : ok Calm.

(** The names whose document a route may delete or insert while [J]
    stays true. *)
Variable mine : string -> Prop.
Hypothesis remove_keeps :
  forall name c, mine name -> J c -> J (Mongo.remove name c).
Hypothesis insert_keeps :
  forall l c c', mine (ResourceLockSchema.resource_name l) ->
                 J c -> Mongo.insert l c = Some c' -> J c'.

Let I := during ok J.

Lemma inv_findOne' t name : inv (I t) (ResourceLock.findOne name).
Proof. now apply inv_findOne. Qed.

Lemma inv_deleteOne' t name :
  mine name -> inv (I t) (ResourceLock.deleteOne name).
Proof. intros H. apply inv_deleteOne; auto. Qed.

Lemma inv_save' t d :
  mine (ResourceLock.resource_name d) ->
  inv (I t) (ResourceLock.save d).
Proof.
  intros H. apply inv_save; auto.
  intros l c c' Hv. apply insert_keeps.
  now rewrite (validate_name d l Hv).
Qed.

Lemma inv_post_locks_request t name pid ttl :
  mine name -> inv (I t) (post_locks_request name pid ttl).
Proof.
  intros Hm. unfold post_locks_request.
  inv_walk;
    try apply inv_findOne'; try (apply inv_deleteOne'; exact Hm);
    try (apply inv_save'; exact Hm).
Qed.

Lemma inv_post_locks_release t name pid :
  mine name -> inv (I t) (post_locks_release name pid).
Proof.
  intros Hm. unfold post_locks_release.
  inv_walk; try apply inv_findOne'; try (apply inv_deleteOne'; exact Hm).
Qed.

Lemma inv_get_locks_status t name :
  mine name -> inv (I t) (get_locks_status name).
Proof.
  intros Hm. unfold get_locks_status.
  inv_walk; try apply inv_findOne'; try (apply inv_deleteOne'; exact Hm).
Qed.

Lemma inv_filter_out_expired {T} (entry : Lock -> T) t now locks :
  (forall l, In l locks -> expired l now = true ->
             mine (ResourceLockSchema.resource_name l)) ->
  inv (I t) (filter_out_expired entry now locks).
Proof.
  intros Hm. unfold filter_out_expired. apply inv_for_of.
  intros l acc Hin. destruct (expired l now) eqn:E.
  - apply inv_bind; [| intros; apply inv_ret].
    apply inv_deleteOne'. now apply Hm.
  - apply inv_ret.
Qed.

End AnyInvariant.

(** The unique index is kept by every store call, the environment's too. *)
Lemma write_unique (x : Write) (c : Collection) :
  Mongo.unique c -> Mongo.unique (write x c).
Proof.
  intros Hu. destruct x as [l|name]; simpl.
  - destruct (Mongo.insert l c) as [c1|] eqn:E.
    + now apply (unique_insert l c).
    + exact Hu.
  - now apply unique_remove.
Qed.

Lemma disturb_unique (e : Env) (c c' : Collection) :
  Mongo.unique c -> disturb e c = Some c' -> Mongo.unique c'.
Proof.
  intros Hu. destruct e as [| |ws]; simpl.
  - now intros [= <-].
  - discriminate.
  - intros [= <-]. revert c Hu.
    induction ws as [|x ws IH]; intros c Hu; simpl.
    + exact Hu.
    + apply IH. now apply write_unique.
Qed.

Lemma inv_route_unique (r : Request) (t : Z) :
  inv (during any_env Mongo.unique t) (route r).
Proof.
  assert (Hd : forall e c c', any_env e -> Mongo.unique c ->
                              disturb e c = Some c' -> Mongo.unique c')
    by (intros e c c' _; apply disturb_unique).
  assert (Hr : forall name c, True -> Mongo.unique c ->
                              Mongo.unique (Mongo.remove name c))
    by (intros name c _; apply unique_remove).
  assert (Hi : forall l c c', True -> Mongo.unique c ->
                              Mongo.insert l c = Some c' -> Mongo.unique c')
    by (intros l c c' _ Hu Hi; now apply (unique_insert l c)).
  destruct r as [name pid ttl|name pid|name| |pid]; simpl.
  - now apply (inv_post_locks_request any_env Mongo.unique Hd I
                 (fun _ => True) Hr Hi).
  - now apply (inv_post_locks_release any_env Mongo.unique Hd I
                 (fun _ => True) Hr).
  - now apply (inv_get_locks_status any_env Mongo.unique Hd I
                 (fun _ => True) Hr).
  - unfold get_locks_all_locked.
    inv_walk; try (now apply inv_await).
    now apply (inv_filter_out_expired any_env Mongo.unique Hd I
                 (fun _ => True) Hr).
  - unfold get_locks_process.
    inv_walk; try (now apply inv_await).
    now apply (inv_filter_out_expired any_env Mongo.unique Hd I
                 (fun _ => True) Hr).
Qed.

(** ** Store calls that nothing disturbs *)

Lemma calm_tl (s : list Env) : calm s -> calm (tl s).
Proof.
  intros H. destruct s as [|e s]; simpl; [exact H |].
  now inversion H.
Qed.

Lemma calm_skipn (n : nat) (s : list Env) : calm s -> calm (skipn n s).
Proof.
  revert s. induction n as [|n IH]; intros s H; simpl; [exact H |].
  destruct s as [|e s]; [exact H |]. apply IH. now inversion H.
Qed.

Lemma await_calm {A} (op : Collection -> (exn + A) * Collection) (w : World) :
  calm (sched w) ->
  await op w =
  (fst (op (db w)), mkWorld (snd (op (db w))) (clock w) (tl (sched w))).
Proof.
  intros H. unfold await. destruct w as [c t s]. simpl in *.
  destruct s as [|e s]; simpl.
  - now destruct (op c).
  - inversion H; subst. simpl. now destruct (op c).
Qed.

Lemma falsy_false (s : string) : s <> EmptyString -> falsy s = false.
Proof. intros H. unfold falsy. now apply String.eqb_neq. Qed.

Lemma valid_input (name pid : string) :
  name <> EmptyString -> pid <> EmptyString ->
  falsy name || falsy pid = false.
Proof. intros Hn Hp. now rewrite !falsy_false. Qed.

(** ** Validation *)

(** C5. A request for a lock, or a release, whose [resource_name] or
    [process_id_str] is empty is answered 400 (InvalidArgument), whatever
    the environment does; the world is left as it was: the collection is
    the same and no store call was made (the schedule is untouched). *)
Theorem invalid_argument_touches_nothing
    (name pid : string) (ttl : option Z) (w : World) :
  name = EmptyString \/ pid = EmptyString ->
  post_locks_request name pid ttl w = (inr BadRequest, w) /\
  post_locks_release name pid w = (inr BadRequest, w).
Proof.
  intros H. unfold post_locks_request, post_locks_release.
  assert (falsy name || falsy pid = true) as ->.
  { destruct H as [-> | ->]; simpl; [reflexivity | apply orb_true_r]. }
  split; reflexivity.
Qed.

Lemma invalid_argument_touches_nothing_witness :
  let w := mkWorld [ResourceLockSchema.mk "db" "p1" 5 None] 7 [Outage] in
  post_locks_request EmptyString "p2" (Some 3) w = (inr BadRequest, w) /\
  post_locks_release EmptyString "p2" w = (inr BadRequest, w).
Proof.
  apply (invalid_argument_touches_nothing EmptyString "p2" (Some 3)).
  left. reflexivity.
Defined.

(** ** Contention *)

Lemma request_of_held_is_denied
    (R H' : string) (ttl : option Z) (l : Lock) (w : World) :
  R <> EmptyString -> H' <> EmptyString ->
  calm (sched w) ->
  Mongo.lookup R (db w) = Some l ->
  live l (clock w) ->
  post_locks_request R H' ttl w =
  (inr (Denied R (ResourceLockSchema.process_id_str l)),
   mkWorld (db w) (clock w) (tl (sched w))).
Proof.
  intros HR HH' Hcalm Hl Hlive.
  apply live_iff_not_expired in Hlive.
  unfold post_locks_request. rewrite (valid_input R H' HR HH').
  unfold try_catch, bind, ResourceLock.findOne.
  rewrite (await_calm _ w Hcalm). simpl.
  rewrite Hl. unfold new_Date. simpl. now rewrite Hlive.
Qed.

Lemma status_of_held (R : string) (l : Lock) (w : World) :
  calm (sched w) ->
  Mongo.lookup R (db w) = Some l ->
  live l (clock w) ->
  get_locks_status R w =
  (inr (IsLocked R (ResourceLockSchema.process_id_str l)
                 (ResourceLockSchema.locked_at l)),
   mkWorld (db w) (clock w) (tl (sched w))).
Proof.
  intros Hcalm Hl Hlive. apply live_iff_not_expired in Hlive.
  unfold get_locks_status, try_catch, bind, ResourceLock.findOne.
  rewrite (await_calm _ w Hcalm). simpl.
  rewrite Hl. unfold new_Date. simpl. now rewrite Hlive.
Qed.

Lemma status_of_absent (R : string) (w : World) :
  calm (sched w) ->
  Mongo.lookup R (db w) = None ->
  get_locks_status R w =
  (inr (IsUnlocked R), mkWorld (db w) (clock w) (tl (sched w))).
Proof.
  intros Hcalm Hl.
  unfold get_locks_status, try_catch, bind, ResourceLock.findOne.
  rewrite (await_calm _ w Hcalm). simpl. now rewrite Hl.
Qed.

Lemma release_by_holder (R A : string) (l : Lock) (w : World) :
  R <> EmptyString -> A <> EmptyString ->
  calm (sched w) ->
  Mongo.lookup R (db w) = Some l ->
  ResourceLockSchema.process_id_str l = A ->
  post_locks_release R A w =
  (inr (Released R),
   mkWorld (Mongo.remove R (db w)) (clock w) (tl (tl (sched w)))).
Proof.
  intros HR HA Hcalm Hl Hpid.
  unfold post_locks_release. rewrite (valid_input R A HR HA).
  unfold try_catch, bind, ResourceLock.findOne, ResourceLock.deleteOne.
  rewrite (await_calm _ w Hcalm). simpl.
  rewrite Hl, Hpid, String.eqb_refl. simpl.
  rewrite await_calm by (simpl; now apply calm_tl).
  reflexivity.
Qed.

(** C6. When [R] is held by a live lease of [H], a request for [R] by any
    process (with well-formed fields, the store calls undisturbed) is
    answered 409 'denied' with [locked_by = H], and the collection is left
    exactly as it was. *)
Theorem denied_leaves_store
    (R H H' : string) (ttl : option Z) (l : Lock) (w : World) :
  R <> EmptyString -> H' <> EmptyString ->
  calm (sched w) ->
  Mongo.lookup R (db w) = Some l ->
  ResourceLockSchema.process_id_str l = H ->
  live l (clock w) ->
  post_locks_request R H' ttl w =
  (inr (Denied R H), mkWorld (db w) (clock w) (tl (sched w))).
Proof.
  intros HR HH' Hcalm Hl <- Hlive.
  now apply request_of_held_is_denied.
Qed.

Lemma denied_leaves_store_witness :
  let l := ResourceLockSchema.mk "db" "p1" 5 (Some 9) in
  post_locks_request "db" "p2" (Some 3) (mkWorld [l] 9 [Calm; Calm]) =
  (inr (Denied "db" "p1"), mkWorld [l] 9 [Calm]).
Proof.
  apply (denied_leaves_store "db" "p1" "p2" (Some 3)
           (ResourceLockSchema.mk "db" "p1" 5 (Some 9))
           (mkWorld [ResourceLockSchema.mk "db" "p1" 5 (Some 9)] 9
                    [Calm; Calm])).
  - discriminate.
  - discriminate.
  - repeat constructor.
  - reflexivity.
  - reflexivity.
  - unfold live. simpl. lia.
Defined.

(** ** Release *)

(** C4. When [R] is held by a live lease of [A] (world [w]), a release of
    [R] by another process [B] is answered 403 (Forbidden) and changes
    nothing in the collection, and the status of [R] asked next is still
    locked by [A]; where [R] has no document (world [w0]), a release of [R]
    by [A] is answered 404 (NotLocked).  Fields are well formed and store
    calls undisturbed. *)
Theorem release_by_other_is_forbidden
    (R A B : string) (l : Lock) (w w0 : World) :
  R <> EmptyString -> A <> EmptyString -> B <> EmptyString -> A <> B ->
  calm (sched w) ->
  Mongo.lookup R (db w) = Some l ->
  ResourceLockSchema.process_id_str l = A ->
  live l (clock w) ->
  calm (sched w0) ->
  Mongo.lookup R (db w0) = None ->
  let w' := snd (post_locks_release R B w) in
  (fst (post_locks_release R B w) = inr (NotLockedByProcess R) /\
   db w' = db w /\
   fst (get_locks_status R w') =
   inr (IsLocked R A (ResourceLockSchema.locked_at l)) /\
   db (snd (get_locks_status R w')) = db w) /\
  (fst (post_locks_release R A w0) = inr (NotLocked R) /\
   db (snd (post_locks_release R A w0)) = db w0).
Proof.
  intros HR HA HB HAB Hcalm Hl Hpid Hlive Hcalm0 Hl0. split.
  - apply live_iff_not_expired in Hlive.
    unfold post_locks_release. rewrite (valid_input R B HR HB).
    unfold try_catch, bind, ResourceLock.findOne.
    rewrite (await_calm _ w Hcalm). simpl.
    rewrite Hl, Hpid.
    assert (String.eqb A B = false) as -> by now apply String.eqb_neq.
    simpl. repeat split.
    + unfold get_locks_status, try_catch, bind, ResourceLock.findOne.
      rewrite await_calm by (simpl; now apply calm_tl).
      simpl. rewrite Hl. unfold new_Date. simpl. rewrite Hlive. simpl.
      now rewrite Hpid.
    + unfold get_locks_status, try_catch, bind, ResourceLock.findOne.
      rewrite await_calm by (simpl; now apply calm_tl).
      simpl. rewrite Hl. unfold new_Date. simpl. now rewrite Hlive.
  - unfold post_locks_release. rewrite (valid_input R A HR HA).
    unfold try_catch, bind, ResourceLock.findOne.
    rewrite (await_calm _ w0 Hcalm0). simpl.
    rewrite Hl0. simpl. split; reflexivity.
Qed.

Lemma release_by_other_is_forbidden_witness :
  let l := ResourceLockSchema.mk "db" "p1" 5 (Some 9) in
  let w := mkWorld [l] 8 [] in
  let w0 := mkWorld [] 8 [] in
  (fst (post_locks_release "db" "p2" w) = inr (NotLockedByProcess "db") /\
   db (snd (post_locks_release "db" "p2" w)) = [l] /\
   fst (get_locks_status "db" (snd (post_locks_release "db" "p2" w))) =
   inr (IsLocked "db" "p1" 5) /\
   db (snd (get_locks_status "db" (snd (post_locks_release "db" "p2" w))))
   = [l]) /\
  (fst (post_locks_release "db" "p1" w0) = inr (NotLocked "db") /\
   db (snd (post_locks_release "db" "p1" w0)) = []).
Proof.
  apply (release_by_other_is_forbidden "db" "p1" "p2"
           (ResourceLockSchema.mk "db" "p1" 5 (Some 9))
           (mkWorld [ResourceLockSchema.mk "db" "p1" 5 (Some 9)] 8 [])
           (mkWorld [] 8 [])).
  - discriminate.
  - discriminate.
  - discriminate.
  - discriminate.
  - constructor.
  - reflexivity.
  - reflexivity.
  - unfold live. simpl. lia.
  - constructor.
  - reflexivity.
Defined.

(** ** The frame of the single-resource routes *)

Lemma solo_disturb (e : Env) (c c' : Collection) :
  solo_env e -> disturb e c = Some c' -> c' = c.
Proof. intros [-> | ->]; simpl; congruence. Qed.

Section Frame.
Variable R : string.
Variable c0 : Collection.

Let J (c : Collection) : Prop := others R c = others R c0.
Let mine (name : string) : Prop := name = R.

Lemma frame_env e c c' : solo_env e -> J c -> disturb e c = Some c' -> J c'.
Proof. intros He Hc Hd. now rewrite (solo_disturb e c c' He Hd). Qed.

Lemma frame_remove name c : mine name -> J c -> J (Mongo.remove name c).
Proof. intros -> Hc. unfold J. now rewrite others_remove. Qed.

Lemma frame_insert l c c' :
  mine (ResourceLockSchema.resource_name l) ->
  J c -> Mongo.insert l c = Some c' -> J c'.
Proof.
  intros Hm Hc Hi. unfold J. rewrite <- Hm.
  rewrite (others_insert l c c' Hi). rewrite Hm. exact Hc.
Qed.

Lemma frame_request t pid ttl :
  inv (during solo_env J t) (post_locks_request R pid ttl).
Proof.
  apply (inv_post_locks_request solo_env J frame_env (or_introl eq_refl)
           mine frame_remove frame_insert).
  reflexivity.
Qed.

Lemma frame_release t pid :
  inv (during solo_env J t) (post_locks_release R pid).
Proof.
  apply (inv_post_locks_release solo_env J frame_env (or_introl eq_refl)
           mine frame_remove).
  reflexivity.
Qed.

Lemma frame_status t :
  inv (during solo_env J t) (get_locks_status R).
Proof.
  apply (inv_get_locks_status solo_env J frame_env (or_introl eq_refl)
           mine frame_remove).
  reflexivity.
Qed.

End Frame.

(** C10. While no other request writes (store calls may fail), a request
    for [R], a release of [R] and a status of [R] leave every document
    whose [resource_name] is not [R] as it was: the documents under other
    names are the same, in the same order, after as before. *)
Theorem single_resource_frame
    (R pid : string) (ttl : option Z) (w : World) :
  solo (sched w) ->
  others R (db (snd (post_locks_request R pid ttl w))) = others R (db w) /\
  others R (db (snd (post_locks_release R pid w))) = others R (db w) /\
  others R (db (snd (get_locks_status R w))) = others R (db w).
Proof.
  intros Hs.
  assert (Hw : during solo_env (fun c => others R c = others R (db w))
                      (clock w) w).
  { repeat split. exact Hs. }
  split; [| split].
  - apply (frame_request R (db w) (clock w) pid ttl w Hw).
  - apply (frame_release R (db w) (clock w) pid w Hw).
  - apply (frame_status R (db w) (clock w) w Hw).
Qed.

Lemma single_resource_frame_witness :
  let a := ResourceLockSchema.mk "a" "p1" 1 None in
  let b := ResourceLockSchema.mk "b" "p1" 2 (Some 3) in
  let w := mkWorld [a; b] 10 [Calm; Outage] in
  others "b" (db (snd (post_locks_request "b" "p1" None w))) = [a] /\
  others "b" (db (snd (post_locks_release "b" "p1" w))) = [a] /\
  others "b" (db (snd (get_locks_status "b" w))) = [a].
Proof.
  apply (single_resource_frame "b" "p1" None
           (mkWorld [ResourceLockSchema.mk "a" "p1" 1 None;
                     ResourceLockSchema.mk "b" "p1" 2 (Some 3)]
                    10 [Calm; Outage])).
  constructor; [now left |]. constructor; [now right |]. constructor.
Defined.

(** ** What a successful acquisition leaves in the collection *)

Lemma hoare_bind_inv {A B} (I : World -> Prop) (m : M A) (k : A -> M B)
    (Q : exn + B -> World -> Prop) :
  inv I m ->
  (forall e w, I w -> Q (inl e) w) ->
  (forall a, hoare I (k a) Q) ->
  hoare I (bind m k) Q.
Proof.
  intros Hm He Hk. apply hoare_bind with (Mid := fun _ w => I w).
  - intros w Hw. specialize (Hm w Hw). destruct (fst (m w)); auto.
  - exact Hk.
Qed.

Lemma anything_env (e : Env) (c c' : Collection) :
  any_env e -> anything c -> disturb e c = Some c' -> anything c'.
Proof. intros; exact Logic.I. Qed.

(** No handler moves the clock. *)
Lemma route_clock (r : Request) (w : World) :
  clock (snd (route r w)) = clock w.
Proof.
  assert (Hw : during any_env anything (clock w) w).
  { repeat split. apply Forall_forall. intros; exact Logic.I. }
  assert (Hr : forall name c, True -> anything c ->
                              anything (Mongo.remove name c))
    by (intros; exact Logic.I).
  assert (Hi : forall l c c', True -> anything c ->
                              Mongo.insert l c = Some c' -> anything c')
    by (intros; exact Logic.I).
  assert (inv (during any_env anything (clock w)) (route r)) as Hinv.
  { destruct r as [name pid ttl|name pid|name| |pid]; simpl.
    - now apply (inv_post_locks_request any_env anything anything_env
                   Logic.I (fun _ => True) Hr Hi).
    - now apply (inv_post_locks_release any_env anything anything_env
                   Logic.I (fun _ => True) Hr).
    - now apply (inv_get_locks_status any_env anything anything_env
                   Logic.I (fun _ => True) Hr).
    - unfold get_locks_all_locked.
      inv_walk; try (now apply inv_await).
      now apply (inv_filter_out_expired any_env anything anything_env
                   Logic.I (fun _ => True) Hr).
    - unfold get_locks_process.
      inv_walk; try (now apply inv_await).
      now apply (inv_filter_out_expired any_env anything anything_env
                   Logic.I (fun _ => True) Hr). }
  destruct (Hinv w Hw) as (_ & Hc & _). exact Hc.
Qed.

(** Whatever the environment does, a request answered 'acquired' has put
    its lock in the collection, where it is the document of its name. *)
Lemma acquired_is_stored
    (name pid : string) (ttl : option Z) (w w1 : World) (r : Response) :
  post_locks_request name pid ttl w = (inr r, w1) ->
  http_status r = 200 ->
  r = Acquired name pid /\
  Mongo.lookup name (db w1) = Some (new_lock name pid ttl (clock w)).
Proof.
  set (t := clock w). set (l := new_lock name pid ttl t).
  set (Q := fun (x : exn + Response) (w' : World) =>
              forall r', x = inr r' -> http_status r' = 200 ->
                         r' = Acquired name pid /\
                         Mongo.lookup name (db w') = Some l).
  assert (H : hoare (during any_env anything t)
                    (post_locks_request name pid ttl) Q).
  { unfold post_locks_request.
    destruct (falsy name || falsy pid).
    { apply hoare_ret. intros w' _ r' [= <-]. discriminate. }
    apply hoare_try_catch with (Mid := fun _ _ => True).
    - apply hoare_bind_inv.
      + apply inv_findOne; [exact anything_env | exact Logic.I].
      + trivial.
      + intros found. apply hoare_bind_inv.
        * inv_walk.
          apply inv_deleteOne; [exact anything_env | exact Logic.I | trivial].
        * trivial.
        * intros [lock|].
          { apply hoare_ret. intros w' _ r' [= <-]. discriminate. }
          intros w' Hw'. destruct Hw' as (Hs & Hc & Hj).
          unfold bind, new_Date. cbv beta iota zeta. rewrite Hc.
          rewrite save_new. fold l.
          destruct (storable l); [| exact Logic.I].
          assert (Hsave :
                    hoare (during any_env anything t)
                      (ResourceLock.insertOne l)
                      (fun x w2 => during any_env anything t w2 /\
                                   (x = inr tt ->
                                    Mongo.lookup name (db w2) = Some l))).
          { apply (hoare_await any_env anything anything_env Logic.I t _
                     (fun x c => x = inr tt ->
                                 Mongo.lookup name c = Some l)).
            - intros c _. split; [| exact Logic.I].
              destruct (Mongo.insert l c) as [c'|] eqn:E; simpl.
              + intros _. apply (lookup_insert l c c' E).
              + discriminate.
            - intros c _. discriminate. }
          specialize (Hsave w' (conj Hs (conj Hc Hj))). simpl in Hsave.
          destruct (ResourceLock.insertOne l w') as [[e|[]] w2]; simpl in *.
          { exact Logic.I. }
          intros r' [= <-] _. split; [reflexivity | now apply Hsave].
    - intros e w' _. unfold Q.
      destruct (match code e with Some c => c =? 11000 | None => false end).
      + unfold bind.
        destruct (ResourceLock.findOne name w') as [[e'|[lock|]] w2];
          simpl; intros r' [= <-]; discriminate.
      + simpl. intros r' [= <-]. discriminate. }
  intros Hrun Hst.
  assert (Hw : during any_env anything t w).
  { repeat split. apply Forall_forall. intros; exact Logic.I. }
  specialize (H w Hw). rewrite Hrun in H. simpl in H.
  now apply H.
Qed.

(** ** A live lease stays until its holder releases it or it expires *)

Lemma live_earlier (l : Lock) (t t' : Z) : t <= t' -> live l t' -> live l t.
Proof.
  unfold live. destruct (ResourceLockSchema.expires_at l); [lia | trivial].
Qed.

Lemma await_solo {A} (op : Collection -> (exn + A) * Collection) (w : World) :
  solo (sched w) ->
  await op w =
  (fst (op (db w)), mkWorld (snd (op (db w))) (clock w) (tl (sched w))) \/
  await op w = (inl StoreDown, mkWorld (db w) (clock w) (tl (sched w))).
Proof.
  intros H. unfold await. destruct w as [c t s]. simpl in *.
  destruct s as [|e s]; simpl.
  - left. now destruct (op c).
  - inversion H as [|? ? [-> | ->] Hs]; subst; simpl.
    + left. now destruct (op c).
    + now right.
Qed.

Lemma lookup_frame (R name : string) (c c' : Collection) :
  R <> name -> others name c' = others name c ->
  Mongo.lookup R c' = Mongo.lookup R c.
Proof.
  intros Hne H.
  rewrite <- (lookup_others R name c' Hne), H.
  now apply lookup_others.
Qed.

Section Held.
Variable R : string.
Variable l : Lock.

(** A request for a held resource changes nothing. *)
Lemma request_held pid ttl w :
  solo (sched w) ->
  Mongo.lookup R (db w) = Some l -> live l (clock w) ->
  db (snd (post_locks_request R pid ttl w)) = db w /\
  (fst (post_locks_request R pid ttl w) = inr BadRequest \/
   fst (post_locks_request R pid ttl w) = inr InternalServerError \/
   fst (post_locks_request R pid ttl w) =
   inr (Denied R (ResourceLockSchema.process_id_str l))).
Proof.
  intros Hs Hl Hlive. apply live_iff_not_expired in Hlive.
  unfold post_locks_request.
  destruct (falsy R || falsy pid); [simpl; tauto |].
  unfold try_catch, bind, ResourceLock.findOne.
  destruct (await_solo
              (fun c => (inr (B := option Lock) (Mongo.lookup R c), c)) w Hs)
    as [E | E]; rewrite E; simpl.
  - rewrite Hl. unfold new_Date. simpl. rewrite Hlive. simpl. tauto.
  - tauto.
Qed.

(** So does a release by a process that does not hold it. *)
Lemma release_held pid w :
  solo (sched w) ->
  Mongo.lookup R (db w) = Some l ->
  pid <> ResourceLockSchema.process_id_str l ->
  db (snd (post_locks_release R pid w)) = db w.
Proof.
  intros Hs Hl Hpid.
  unfold post_locks_release.
  destruct (falsy R || falsy pid); [reflexivity |].
  unfold try_catch, bind, ResourceLock.findOne.
  destruct (await_solo
              (fun c => (inr (B := option Lock) (Mongo.lookup R c), c)) w Hs)
    as [E | E]; rewrite E; simpl.
  - rewrite Hl.
    assert (String.eqb (ResourceLockSchema.process_id_str l) pid = false)
      as -> by (apply String.eqb_neq; congruence).
    reflexivity.
  - reflexivity.
Qed.

(** So does a status, while the lease is live. *)
Lemma status_held w :
  solo (sched w) ->
  Mongo.lookup R (db w) = Some l -> live l (clock w) ->
  db (snd (get_locks_status R w)) = db w.
Proof.
  intros Hs Hl Hlive. apply live_iff_not_expired in Hlive.
  unfold get_locks_status, try_catch, bind, ResourceLock.findOne.
  destruct (await_solo
              (fun c => (inr (B := option Lock) (Mongo.lookup R c), c)) w Hs)
    as [E | E]; rewrite E; simpl.
  - rewrite Hl. unfold new_Date. simpl. now rewrite Hlive.
  - reflexivity.
Qed.

Let held := holding R l.

Lemma holding_env e c c' :
  solo_env e -> held c -> disturb e c = Some c' -> held c'.
Proof. intros He Hc Hd. now rewrite (solo_disturb e c c' He Hd). Qed.

Lemma holding_remove name c :
  name <> R -> held c -> held (Mongo.remove name c).
Proof.
  intros Hne [Hu Hl]. split; [now apply unique_remove |].
  rewrite lookup_remove_other; [exact Hl | congruence].
Qed.

(** Under the index, a document that has expired is not the one of [R]
    while the lease of [R] is live. *)
Lemma expired_is_another c now x :
  held c -> live l now -> In x c -> expired x now = true ->
  ResourceLockSchema.resource_name x <> R.
Proof.
  intros [Hu Hl] Hlive Hin Hx Hname.
  apply live_iff_not_expired in Hlive.
  pose proof (unique_lookup c x Hu Hin) as Hfind.
  rewrite Hname in Hfind. congruence.
Qed.

Lemma listing_held {T} (entry : Lock -> T) (wrap : list T -> Response)
    t (locks : M (list Lock)) w :
  hoare (during solo_env held t) locks
        (fun r w' => during solo_env held t w' /\
                     (r = inl StoreDown \/
                      exists xs, r = inr xs /\ incl xs (db w'))) ->
  live l t ->
  during solo_env held t w ->
  during solo_env held t
    (snd (try_catch
            (currentTime <- new_Date ;;
             found <- locks ;;
             validLocks <- filter_out_expired entry currentTime found ;;
             ret (wrap validLocks))
            (fun error => ret InternalServerError) w)).
Proof.
  intros Hlocks Hlive Hw.
  unfold try_catch, bind, new_Date. simpl.
  pose proof Hw as (_ & Hc & _). rewrite Hc.
  specialize (Hlocks w Hw). simpl in Hlocks.
  destruct (locks w) as [[e|xs] w']; simpl in *; [tauto |].
  destruct Hlocks as [Hw' [Hbad | (ys & [= <-] & Hincl)]];
    [discriminate |].
  assert (Hloop : during solo_env held t
                    (snd (filter_out_expired entry t xs w'))).
  { apply (inv_filter_out_expired solo_env held holding_env
             (or_introl eq_refl) (fun name => name <> R) holding_remove
             entry t t xs); [| exact Hw'].
    intros x Hx He.
    destruct Hw' as (_ & _ & Hh).
    apply (expired_is_another (db w') t x Hh Hlive (Hincl x Hx) He). }
  destruct (filter_out_expired entry t xs w') as [[e|v] w2]; exact Hloop.
Qed.

End Held.

Lemma held_serve (R : string) (l : Lock) (r : Request) (env : list Env)
    (w : World) :
  holding R l (db w) -> live l (clock w) ->
  solo env -> r <> Release R (ResourceLockSchema.process_id_str l) ->
  holding R l (db (snd (serve r env w))).
Proof.
  intros Hh Hlive Hs Hr. unfold serve.
  set (w0 := mkWorld (db w) (clock w) env).
  assert (Hw0 : during solo_env (holding R l) (clock w) w0)
    by (repeat split; [exact Hs | apply Hh | apply Hh]).
  assert (Hu : Mongo.unique (db (snd (route r w0)))).
  { apply (inv_route_unique r (clock w) w0).
    repeat split; [| apply Hh]. apply Forall_forall. intros; exact Logic.I. }
  assert (Hfr : during solo_env (fun c => others
                   match r with
                   | Acquire n _ _ | Release n _ | Status n => n
                   | _ => R
                   end c = others
                   match r with
                   | Acquire n _ _ | Release n _ | Status n => n
                   | _ => R
                   end (db w0)) (clock w) w0)
    by (repeat split; exact Hs).
  destruct Hh as [Hu0 Hl].
  destruct r as [n p ttl|n p|n| |p]; simpl.
  - split; [exact Hu |].
    destruct (string_dec n R) as [-> | Hne].
    + destruct (request_held R l p ttl w0 Hs Hl Hlive) as [-> _]. exact Hl.
    + destruct (frame_request n (db w0) (clock w) p ttl w0 Hfr)
        as (_ & _ & Ho).
      rewrite (lookup_frame R n _ _ (not_eq_sym Hne) Ho). exact Hl.
  - split; [exact Hu |].
    destruct (string_dec n R) as [-> | Hne].
    + rewrite (release_held R l p w0 Hs Hl); [exact Hl |].
      intros ->. now apply Hr.
    + destruct (frame_release n (db w0) (clock w) p w0 Hfr) as (_ & _ & Ho).
      rewrite (lookup_frame R n _ _ (not_eq_sym Hne) Ho). exact Hl.
  - split; [exact Hu |].
    destruct (string_dec n R) as [-> | Hne].
    + rewrite (status_held R l w0 Hs Hl Hlive). exact Hl.
    + destruct (frame_status n (db w0) (clock w) w0 Hfr) as (_ & _ & Ho).
      rewrite (lookup_frame R n _ _ (not_eq_sym Hne) Ho). exact Hl.
  - apply (listing_held R l all_entry AllLocked (clock w)
             ResourceLock.find w0); [| exact Hlive | exact Hw0].
    intros w1 Hw1.
    destruct (hoare_find solo_env (holding R l) (holding_env R l)
                (or_introl eq_refl) (clock w) w1 Hw1) as [Hd Hres].
    split; [exact Hd |].
    destruct Hres as [E | E]; [now left | right].
    eexists. split; [exact E | apply incl_refl].
  - apply (listing_held R l process_entry ProcessLocks (clock w)
             (ResourceLock.find_by p) w0); [| exact Hlive | exact Hw0].
    intros w1 Hw1.
    destruct (hoare_find_by solo_env (holding R l) (holding_env R l)
                (or_introl eq_refl) (clock w) p w1 Hw1) as [Hd Hres].
    split; [exact Hd |].
    destruct Hres as [E | E]; [now left | right].
    eexists. split; [exact E |]. apply incl_filter.
Qed.

Lemma happen_clock (ev : Event) (w : World) : clock w <= clock (happen ev w).
Proof.
  destruct ev as [r env | ms]; simpl.
  - unfold serve. rewrite route_clock. simpl. lia.
  - lia.
Qed.

Lemma run_cons (ev : Event) (evs : list Event) (w : World) :
  run (ev :: evs) w = run evs (happen ev w).
Proof. reflexivity. Qed.

Lemma run_clock (evs : list Event) (w : World) : clock w <= clock (run evs w).
Proof.
  revert w. induction evs as [|ev evs IH]; intros w.
  - simpl. lia.
  - rewrite run_cons.
    pose proof (happen_clock ev w). specialize (IH (happen ev w)). lia.
Qed.

Lemma happen_unique (ev : Event) (w : World) :
  Mongo.unique (db w) -> Mongo.unique (db (happen ev w)).
Proof.
  intros Hu. destruct ev as [r env | ms]; simpl; [| exact Hu].
  apply (inv_route_unique r (clock w) (mkWorld (db w) (clock w) env)).
  repeat split; [| exact Hu]. apply Forall_forall. intros; exact Logic.I.
Qed.

(** The index holds at every instant, whatever is asked of the server and
    whatever the environment does meanwhile. *)
Lemma run_unique (evs : list Event) (w : World) :
  Mongo.unique (db w) -> Mongo.unique (db (run evs w)).
Proof.
  revert w. induction evs as [|ev evs IH]; intros w Hu.
  - exact Hu.
  - rewrite run_cons. apply IH. now apply happen_unique.
Qed.

Lemma held_run (R : string) (l : Lock) (evs : list Event) (w : World) :
  holding R l (db w) ->
  live l (clock (run evs w)) ->
  Forall (leaves_lease R (ResourceLockSchema.process_id_str l)) evs ->
  holding R l (db (run evs w)).
Proof.
  revert w. induction evs as [|ev evs IH]; intros w Hh Hlive Hevs.
  - exact Hh.
  - inversion Hevs as [|? ? Hev Hrest]; subst.
    rewrite run_cons in *. apply IH; [| exact Hlive | exact Hrest].
    destruct ev as [r env | ms]; simpl.
    + destruct Hev as [Hs Hr].
      apply held_serve; [exact Hh | | exact Hs | exact Hr].
      apply (live_earlier l _ (clock (run evs (happen (Call r env) w))));
        [| exact Hlive].
      etransitivity; [apply (happen_clock (Call r env) w) | apply run_clock].
    + exact Hh.
Qed.

(** ** Uniqueness of the live lease *)

(** X16. The collection never holds two documents for one resource,
    whatever requests are served and whatever other requests do meanwhile.
    When requests are served one after another (no other request writes
    while one is served; store calls may fail): once a request for [R] by
    [A] has been answered 'acquired', then after any later events in which
    [A] does not release [R], and as long as the lease has not expired,
    the lease is still the document of [R], and every request for [R] is
    refused: it is never answered 'acquired', and it is answered 'denied'
    with [locked_by = A] when its fields are well formed and its store
    calls undisturbed. *)
Theorem one_live_lease_per_resource
    (R A : string) (ttl : option Z) (env : list Env) (w w1 : World)
    (evs : list Event) :
  Mongo.unique (db w) ->
  serve (Acquire R A ttl) env w = (inr (Acquired R A), w1) ->
  Forall (leaves_lease R A) evs ->
  live (new_lock R A ttl (clock w)) (clock (run evs w1)) ->
  (forall evs0, Mongo.unique (db (run evs0 w))) /\
  Mongo.lookup R (db (run evs w1)) = Some (new_lock R A ttl (clock w)) /\
  (forall B ttl' env',
      solo env' ->
      (forall R' B', fst (serve (Acquire R B ttl') env' (run evs w1))
                     <> inr (Acquired R' B')) /\
      db (snd (serve (Acquire R B ttl') env' (run evs w1)))
      = db (run evs w1)) /\
  (forall B ttl' env',
      B <> EmptyString -> calm env' ->
      fst (serve (Acquire R B ttl') env' (run evs w1)) = inr (Denied R A)).
Proof.
  intros Hu Hacq Hevs Hlive.
  set (l := new_lock R A ttl (clock w)) in *.
  unfold serve in Hacq. simpl in Hacq.
  destruct (acquired_is_stored R A ttl _ w1 _ Hacq eq_refl) as [_ Hl].
  simpl in Hl. fold l in Hl.
  assert (Hu1 : Mongo.unique (db w1)).
  { change w1 with (snd (inr (A := exn) (Acquired R A), w1)).
    rewrite <- Hacq.
    apply (inv_route_unique (Acquire R A ttl) (clock w)
             (mkWorld (db w) (clock w) env)).
    repeat split; [| exact Hu]. apply Forall_forall. intros; exact Logic.I. }
  assert (Hh : holding R l (db (run evs w1))).
  { apply held_run; [split; assumption | exact Hlive | exact Hevs]. }
  assert (HR : R <> EmptyString).
  { intros ->. unfold post_locks_request in Hacq. simpl in Hacq.
    discriminate. }
  destruct Hh as [Hu2 Hl2].
  split; [| split; [| split]].
  - intros evs0. now apply run_unique.
  - exact Hl2.
  - intros B ttl' env' Hs. unfold serve. simpl.
    set (w2 := mkWorld (db (run evs w1)) (clock (run evs w1)) env').
    destruct (request_held R l B ttl' w2 Hs Hl2 Hlive)
      as [Hdb [E | [E | E]]].
    + split; [| exact Hdb]. intros R' B'. rewrite E. discriminate.
    + split; [| exact Hdb]. intros R' B'. rewrite E. discriminate.
    + split; [| exact Hdb]. intros R' B'. rewrite E. discriminate.
  - intros B ttl' env' HB Hcalm. unfold serve. simpl.
    rewrite (request_of_held_is_denied R B ttl' l); auto.
Qed.

Ltac schedule_ok :=
  repeat first [ apply Forall_nil | apply Forall_cons | exact Logic.I
               | discriminate | left; reflexivity | right; reflexivity
               | split ].

Lemma one_live_lease_per_resource_witness :
  let w := mkWorld [] 0 [] in
  let w1 := snd (serve (Acquire "db" "p1" (Some 5)) [Calm; Calm] w) in
  let evs := [Call (Status "db") []; Elapse 3000;
              Call (Release "db" "p2") [Outage]; Call ListAll [];
              Call (Acquire "log" "p2" None) []] in
  (forall evs0, Mongo.unique (db (run evs0 w))) /\
  Mongo.lookup "db" (db (run evs w1)) =
  Some (ResourceLockSchema.mk "db" "p1" 0 (Some 5000)) /\
  (forall B ttl' env',
      solo env' ->
      (forall R' B', fst (serve (Acquire "db" B ttl') env' (run evs w1))
                     <> inr (Acquired R' B')) /\
      db (snd (serve (Acquire "db" B ttl') env' (run evs w1)))
      = db (run evs w1)) /\
  (forall B ttl' env',
      B <> EmptyString -> calm env' ->
      fst (serve (Acquire "db" B ttl') env' (run evs w1))
      = inr (Denied "db" "p1")).
Proof.
  intros w w1 evs.
  apply (one_live_lease_per_resource "db" "p1" (Some 5) [Calm; Calm] w w1 evs).
  - constructor.
  - reflexivity.
  - schedule_ok.
  - vm_compute. discriminate.
Defined.

(** ** A lease without a time to live *)

(** C8. A lease acquired with no [ttl_seconds] never expires: after a
    request for [R] by [A] without [ttl_seconds] was answered 'acquired',
    and after any later events (time passing without bound, other requests)
    in which [A] does not release [R], the status of [R] is locked by [A]
    with the [locked_at] of the acquisition; a release by [A] then is
    answered 'released' and the status after it is unlocked. *)
Theorem lease_without_ttl_never_expires
    (R A : string) (env env' : list Env) (w w1 : World) (evs : list Event) :
  Mongo.unique (db w) ->
  serve (Acquire R A None) env w = (inr (Acquired R A), w1) ->
  Forall (leaves_lease R A) evs ->
  calm env' ->
  fst (serve (Status R) env' (run evs w1)) = inr (IsLocked R A (clock w)) /\
  db (snd (serve (Status R) env' (run evs w1))) = db (run evs w1) /\
  fst (serve (Release R A) env' (run evs w1)) = inr (Released R) /\
  fst (serve (Status R) env' (snd (serve (Release R A) env' (run evs w1))))
  = inr (IsUnlocked R).
Proof.
  intros Hu Hacq Hevs Hcalm.
  set (l := new_lock R A None (clock w)).
  assert (Hnever : forall t, live l t) by (intros t; exact Logic.I).
  unfold serve in Hacq. simpl in Hacq.
  destruct (acquired_is_stored R A None _ w1 _ Hacq eq_refl) as [_ Hl].
  simpl in Hl. fold l in Hl.
  assert (Hu1 : Mongo.unique (db w1)).
  { change w1 with (snd (inr (A := exn) (Acquired R A), w1)).
    rewrite <- Hacq.
    apply (inv_route_unique (Acquire R A None) (clock w)
             (mkWorld (db w) (clock w) env)).
    repeat split; [| exact Hu]. apply Forall_forall. intros; exact Logic.I. }
  assert (Hh : holding R l (db (run evs w1))).
  { apply held_run; [split; assumption | apply Hnever | exact Hevs]. }
  assert (HRA : R <> EmptyString /\ A <> EmptyString).
  { unfold post_locks_request in Hacq.
    destruct (falsy R) eqn:ER; [discriminate |].
    destruct (falsy A) eqn:EA; [discriminate |].
    unfold falsy in ER, EA. split; now apply String.eqb_neq. }
  destruct HRA as [HR HA]. destruct Hh as [Hu2 Hl2].
  unfold serve. simpl.
  rewrite (status_of_held R l) by (auto || apply Hnever).
  rewrite (release_by_holder R A l) by auto.
  simpl. repeat split.
  rewrite status_of_absent; [reflexivity | simpl; assumption | simpl].
  now apply unique_lookup_remove.
Qed.

Lemma lease_without_ttl_never_expires_witness :
  let w := mkWorld [] 7 [] in
  let w1 := snd (serve (Acquire "db" "p1" None) [] w) in
  let evs := [Elapse 1000000000000; Call (Release "db" "p2") [];
              Call ListAll []; Elapse 1000000000000;
              Call (Acquire "db" "p2" (Some 1)) [Calm; Outage]] in
  fst (serve (Status "db") [] (run evs w1)) = inr (IsLocked "db" "p1" 7) /\
  db (snd (serve (Status "db") [] (run evs w1))) = db (run evs w1) /\
  fst (serve (Release "db" "p1") [] (run evs w1)) = inr (Released "db") /\
  fst (serve (Status "db") []
         (snd (serve (Release "db" "p1") [] (run evs w1))))
  = inr (IsUnlocked "db").
Proof.
  intros w w1 evs.
  apply (lease_without_ttl_never_expires "db" "p1" [] [] w w1 evs).
  - constructor.
  - reflexivity.
  - schedule_ok.
  - constructor.
Defined.

(** ** The listings when nothing disturbs the store *)

Lemma skipn_S_tl {A} (n : nat) (s : list A) : skipn (S n) s = skipn n (tl s).
Proof. destruct s; simpl; [now rewrite skipn_nil | reflexivity]. Qed.

Lemma for_of_calm {T} (entry : Lock -> T) (now : Z) (locks : list Lock) :
  forall (acc : list T) (w : World),
    calm (sched w) ->
    for_of locks
      (fun lock validLocks =>
         if expired lock now
         then
           ResourceLock.deleteOne (ResourceLockSchema.resource_name lock) ;;;
           ret validLocks
         else ret (validLocks ++ [entry lock]))
      acc w =
    (inr (acc ++ map entry (List.filter (is_live now) locks)),
     mkWorld (sweep (List.filter (is_expired now) locks) (db w)) (clock w)
             (skipn (List.length (List.filter (is_expired now) locks))
                    (sched w))).
Proof.
  induction locks as [|x locks IH]; intros acc w Hcalm.
  - simpl. rewrite app_nil_r. now destruct w.
  - cbn [for_of]. unfold bind at 1.
    destruct (expired x now) eqn:E.
    + assert (List.filter (is_live now) (x :: locks)
              = List.filter (is_live now) locks) as ->
        by (cbn [List.filter]; unfold is_live at 1; now rewrite E).
      assert (List.filter (is_expired now) (x :: locks)
              = x :: List.filter (is_expired now) locks) as ->
        by (cbn [List.filter]; unfold is_expired at 1; now rewrite E).
      unfold bind at 1. unfold ResourceLock.deleteOne.
      rewrite (await_calm _ w Hcalm). cbn [fst snd ret].
      rewrite IH by (cbn [sched]; now apply calm_tl).
      cbn [db clock sched List.length]. rewrite skipn_S_tl.
      reflexivity.
    + assert (List.filter (is_live now) (x :: locks)
              = x :: List.filter (is_live now) locks) as ->
        by (cbn [List.filter]; unfold is_live at 1; now rewrite E).
      assert (List.filter (is_expired now) (x :: locks)
              = List.filter (is_expired now) locks) as ->
        by (cbn [List.filter]; unfold is_expired at 1; now rewrite E).
      cbn [ret]. rewrite (IH _ w Hcalm). cbn [map].
      now rewrite <- app_assoc.
Qed.

Lemma filter_out_expired_calm {T} (entry : Lock -> T) (now : Z)
    (locks : list Lock) (w : World) :
  calm (sched w) ->
  filter_out_expired entry now locks w =
  (inr (map entry (List.filter (is_live now) locks)),
   mkWorld (sweep (List.filter (is_expired now) locks) (db w)) (clock w)
           (skipn (List.length (List.filter (is_expired now) locks))
                  (sched w))).
Proof.
  intros Hcalm. unfold filter_out_expired.
  now rewrite (for_of_calm entry now locks [] w Hcalm).
Qed.

Lemma all_locked_calm (w : World) :
  calm (sched w) ->
  get_locks_all_locked w =
  (inr (AllLocked (map all_entry (List.filter (is_live (clock w)) (db w)))),
   mkWorld (sweep (List.filter (is_expired (clock w)) (db w)) (db w))
           (clock w)
           (skipn (List.length (List.filter (is_expired (clock w)) (db w)))
                  (tl (sched w)))).
Proof.
  intros Hcalm.
  unfold get_locks_all_locked, try_catch, bind, new_Date, ResourceLock.find.
  simpl. rewrite (await_calm _ w Hcalm). simpl.
  rewrite filter_out_expired_calm by (simpl; now apply calm_tl).
  reflexivity.
Qed.

Lemma process_calm (pid : string) (w : World) :
  calm (sched w) ->
  let mine := List.filter (Mongo.owned pid) (db w) in
  get_locks_process pid w =
  (inr (ProcessLocks
          (map process_entry (List.filter (is_live (clock w)) mine))),
   mkWorld (sweep (List.filter (is_expired (clock w)) mine) (db w))
           (clock w)
           (skipn (List.length (List.filter (is_expired (clock w)) mine))
                  (tl (sched w)))).
Proof.
  intros Hcalm mine.
  unfold get_locks_process, try_catch, bind, new_Date, ResourceLock.find_by.
  simpl. rewrite (await_calm _ w Hcalm). simpl.
  rewrite filter_out_expired_calm by (simpl; now apply calm_tl).
  reflexivity.
Qed.

Lemma remove_keeps_none (name other : string) (c : Collection) :
  Mongo.lookup name c = None -> Mongo.lookup name (Mongo.remove other c) = None.
Proof.
  unfold Mongo.lookup. induction c as [|x c IH]; simpl; [trivial |].
  destruct (Mongo.named name x) eqn:E; [discriminate |].
  intros H. destruct (Mongo.named other x); [exact H |].
  simpl. rewrite E. now apply IH.
Qed.

Lemma sweep_keeps_none (name : string) (xs : list Lock) (c : Collection) :
  Mongo.lookup name c = None -> Mongo.lookup name (sweep xs c) = None.
Proof.
  revert c. induction xs as [|x xs IH]; intros c H; simpl; [exact H |].
  apply IH. now apply remove_keeps_none.
Qed.

(** Under the index, a document that a listing found expired is gone from
    the collection afterwards. *)
Lemma sweep_lookup_none (x : Lock) (xs : list Lock) (c : Collection) :
  Mongo.unique c -> In x xs ->
  Mongo.lookup (ResourceLockSchema.resource_name x) (sweep xs c) = None.
Proof.
  revert c. induction xs as [|y xs IH]; intros c Hu Hin; simpl;
    [destruct Hin |].
  destruct Hin as [-> | Hin].
  - apply sweep_keeps_none. now apply unique_lookup_remove.
  - apply IH; [now apply unique_remove | exact Hin].
Qed.

(** ** Liveness, as the routes decide it *)

Lemma request_of_expired
    (R B : string) (ttl : option Z) (l : Lock) (w : World) :
  R <> EmptyString -> B <> EmptyString ->
  calm (sched w) -> Mongo.unique (db w) ->
  Mongo.lookup R (db w) = Some l ->
  expired l (clock w) = true ->
  storable (new_lock R B ttl (clock w)) = true ->
  post_locks_request R B ttl w =
  (inr (Acquired R B),
   mkWorld (Mongo.remove R (db w) ++ [new_lock R B ttl (clock w)]) (clock w)
           (tl (tl (tl (sched w))))).
Proof.
  intros HR HB Hcalm Hu Hl He Hst.
  unfold post_locks_request. rewrite (valid_input R B HR HB).
  unfold try_catch, bind, ResourceLock.findOne, ResourceLock.deleteOne.
  rewrite (await_calm _ w Hcalm). simpl.
  rewrite Hl. unfold new_Date. simpl. rewrite He.
  rewrite await_calm by (simpl; now apply calm_tl). simpl.
  rewrite save_new, Hst. unfold ResourceLock.insertOne.
  rewrite await_calm by (simpl; now apply calm_tl, calm_tl). simpl.
  rewrite (insert_absent (new_lock R B ttl (clock w)))
    by (simpl; now apply unique_lookup_remove).
  reflexivity.
Qed.

(** When the dates of the new document are not valid, the expired
    document has been deleted when [save()] refuses the new one. *)
Lemma request_of_expired_invalid
    (R B : string) (ttl : option Z) (l : Lock) (w : World) :
  R <> EmptyString -> B <> EmptyString ->
  calm (sched w) ->
  Mongo.lookup R (db w) = Some l ->
  expired l (clock w) = true ->
  storable (new_lock R B ttl (clock w)) = false ->
  post_locks_request R B ttl w =
  (inr InternalServerError,
   mkWorld (Mongo.remove R (db w)) (clock w) (tl (tl (sched w)))).
Proof.
  intros HR HB Hcalm Hl He Hst.
  unfold post_locks_request. rewrite (valid_input R B HR HB).
  unfold try_catch, bind, ResourceLock.findOne, ResourceLock.deleteOne.
  rewrite (await_calm _ w Hcalm). simpl.
  rewrite Hl. unfold new_Date. simpl. rewrite He.
  rewrite await_calm by (simpl; now apply calm_tl). simpl.
  rewrite save_new, Hst. reflexivity.
Qed.

Lemma request_of_absent
    (R B : string) (ttl : option Z) (w : World) :
  R <> EmptyString -> B <> EmptyString ->
  calm (sched w) ->
  Mongo.lookup R (db w) = None ->
  storable (new_lock R B ttl (clock w)) = true ->
  post_locks_request R B ttl w =
  (inr (Acquired R B),
   mkWorld (db w ++ [new_lock R B ttl (clock w)]) (clock w)
           (tl (tl (sched w)))).
Proof.
  intros HR HB Hcalm Hl Hst.
  unfold post_locks_request. rewrite (valid_input R B HR HB).
  unfold try_catch, bind, ResourceLock.findOne.
  rewrite (await_calm _ w Hcalm). simpl.
  rewrite Hl. unfold new_Date. simpl.
  rewrite save_new, Hst. unfold ResourceLock.insertOne.
  rewrite await_calm by (simpl; now apply calm_tl). simpl.
  rewrite (insert_absent (new_lock R B ttl (clock w))) by exact Hl.
  reflexivity.
Qed.

Lemma status_of_expired (R : string) (l : Lock) (w : World) :
  calm (sched w) ->
  Mongo.lookup R (db w) = Some l ->
  expired l (clock w) = true ->
  get_locks_status R w =
  (inr (IsUnlocked R),
   mkWorld (Mongo.remove R (db w)) (clock w) (tl (tl (sched w)))).
Proof.
  intros Hcalm Hl He.
  unfold get_locks_status, try_catch, bind, ResourceLock.findOne,
    ResourceLock.deleteOne.
  rewrite (await_calm _ w Hcalm). simpl.
  rewrite Hl. unfold new_Date. simpl. rewrite He.
  rewrite await_calm by (simpl; now apply calm_tl).
  reflexivity.
Qed.

Lemma unique_same_name (c : Collection) (x y : Lock) :
  Mongo.unique c -> In x c -> In y c ->
  ResourceLockSchema.resource_name x = ResourceLockSchema.resource_name y ->
  x = y.
Proof.
  intros Hu Hx Hy Hname.
  pose proof (unique_lookup c x Hu Hx) as Hfx.
  pose proof (unique_lookup c y Hu Hy) as Hfy.
  rewrite Hname in Hfx. congruence.
Qed.

Lemma listed_iff_live {T} (entry : Lock -> T) (now : Z)
    (l : Lock) (c found : Collection) :
  (forall x, entry x = entry l ->
             ResourceLockSchema.resource_name x
             = ResourceLockSchema.resource_name l) ->
  Mongo.unique c -> In l found -> incl found c ->
  In (entry l) (map entry (List.filter (is_live now) found)) <-> live l now.
Proof.
  intros Hentry Hu Hl Hincl. rewrite live_iff_not_expired. split.
  - intros Hin. apply in_map_iff in Hin. destruct Hin as (x & Hx & Hin).
    apply filter_In in Hin. destruct Hin as [Hin Hlive].
    assert (x = l) as <-.
    { apply (unique_same_name c); auto. }
    unfold is_live in Hlive. now apply negb_true_iff.
  - intros Hlive. apply in_map. apply filter_In. split; [exact Hl |].
    unfold is_live. now rewrite Hlive.
Qed.

Lemma sweep_keeps_some (R : string) (l : Lock) (xs : list Lock)
    (c : Collection) :
  (forall x, In x xs -> ResourceLockSchema.resource_name x <> R) ->
  Mongo.lookup R c = Some l -> Mongo.lookup R (sweep xs c) = Some l.
Proof.
  revert c. induction xs as [|x xs IH]; intros c Hxs Hl; [exact Hl |].
  change (sweep (x :: xs) c)
    with (sweep xs (Mongo.remove (ResourceLockSchema.resource_name x) c)).
  apply IH.
  - intros y Hy. apply Hxs. now right.
  - rewrite lookup_remove_other; [exact Hl |].
    apply not_eq_sym. apply Hxs. now left.
Qed.

(** Under the index, a listing leaves a live lease in place. *)
Lemma sweep_keeps_live (now : Z) (l : Lock) (found c : Collection) :
  Mongo.unique c -> In l c -> incl found c -> expired l now = false ->
  Mongo.lookup (ResourceLockSchema.resource_name l)
    (sweep (List.filter (is_expired now) found) c) = Some l.
Proof.
  intros Hu Hin Hincl Hlive. apply sweep_keeps_some.
  - intros x Hx Hname. apply filter_In in Hx. destruct Hx as [Hx He].
    assert (x = l) as -> by (apply (unique_same_name c); auto).
    unfold is_expired in He. congruence.
  - now apply unique_lookup.
Qed.

(** C2 (as amended). For every stored lease and every current time, the
    request, status, list-all and list-by-holder routes treat the lease as
    live iff [expires_at] is absent or [expires_at >= now]: they show it as
    a held lock exactly then, and leave its document in place; a lease
    whose [expires_at] is before [now] is shown by none of them and is
    reclaimed instead: the status and the listings delete its document,
    and the request deletes it and stores its own lock in its place when
    the dates of that lock are valid (nothing when they are not).  The
    index holds, fields are well formed, store calls undisturbed. *)
Theorem lease_shown_iff_live
    (B : string) (ttl : option Z) (l : Lock) (w : World) :
  ResourceLockSchema.resource_name l <> EmptyString -> B <> EmptyString ->
  calm (sched w) -> Mongo.unique (db w) -> In l (db w) ->
  let R := ResourceLockSchema.resource_name l in
  let A := ResourceLockSchema.process_id_str l in
  let mine := new_lock R B ttl (clock w) in
  shown_iff live B ttl l w /\
  Mongo.lookup R (db (snd (post_locks_request R B ttl w)))
  = (if expired l (clock w)
     then if storable mine then Some mine else None
     else Some l) /\
  Mongo.lookup R (db (snd (get_locks_status R w)))
  = (if expired l (clock w) then None else Some l) /\
  Mongo.lookup R (db (snd (get_locks_all_locked w)))
  = (if expired l (clock w) then None else Some l) /\
  Mongo.lookup R (db (snd (get_locks_process A w)))
  = (if expired l (clock w) then None else Some l).
Proof.
  intros HR HB Hcalm Hu Hin R A mine.
  pose proof (unique_lookup (db w) l Hu Hin) as Hl. fold R in Hl.
  assert (Hmine : In l (List.filter (Mongo.owned A) (db w))).
  { apply filter_In. split; [exact Hin |].
    unfold Mongo.owned, A. apply String.eqb_refl. }
  assert (Hall : reports l (fst (get_locks_all_locked w))
                 <-> live l (clock w)).
  { rewrite (all_locked_calm w Hcalm). simpl.
    apply (listed_iff_live all_entry (clock w) l (db w) (db w));
      auto using incl_refl.
    intros x Hx. unfold all_entry in Hx. congruence. }
  assert (Hproc : reports l (fst (get_locks_process A w))
                  <-> live l (clock w)).
  { rewrite (process_calm A w Hcalm). simpl.
    apply (listed_iff_live process_entry (clock w) l (db w)); auto.
    - intros x Hx. unfold process_entry in Hx. congruence.
    - apply incl_filter. }
  rewrite (all_locked_calm w Hcalm), (process_calm A w Hcalm).
  cbn [snd db].
  destruct (expired l (clock w)) eqn:E.
  - assert (Hdead : ~ live l (clock w)).
    { rewrite live_iff_not_expired. congruence. }
    rewrite (status_of_expired R l w) by assumption.
    assert (Hgone : Mongo.lookup R (Mongo.remove R (db w)) = None)
      by now apply unique_lookup_remove.
    assert (Hrest :
              Mongo.lookup R (Mongo.remove R (db w)) = None /\
              Mongo.lookup R
                (sweep (List.filter (is_expired (clock w)) (db w)) (db w))
              = None /\
              Mongo.lookup R
                (sweep (List.filter (is_expired (clock w))
                          (List.filter (Mongo.owned A) (db w))) (db w))
              = None).
    { split; [exact Hgone | split].
      - apply sweep_lookup_none; [exact Hu |].
        apply filter_In. split; [exact Hin | exact E].
      - apply sweep_lookup_none; [exact Hu |].
        apply filter_In. split; [exact Hmine | exact E]. }
    destruct (storable mine) eqn:Est.
    + rewrite (request_of_expired R B ttl l w) by assumption.
      split.
      * unfold shown_iff. fold R A.
        rewrite (request_of_expired R B ttl l w) by assumption.
        rewrite (status_of_expired R l w) by assumption.
        simpl. tauto.
      * split; [| exact Hrest]. simpl.
        change R with (ResourceLockSchema.resource_name mine) at 1.
        apply (lookup_insert _ (Mongo.remove R (db w))).
        now apply insert_absent.
    + rewrite (request_of_expired_invalid R B ttl l w) by assumption.
      split.
      * unfold shown_iff. fold R A.
        rewrite (request_of_expired_invalid R B ttl l w) by assumption.
        rewrite (status_of_expired R l w) by assumption.
        simpl. tauto.
      * split; [exact Hgone | exact Hrest].
  - assert (Hlive : live l (clock w)) by now apply live_iff_not_expired.
    rewrite (request_of_held_is_denied R B ttl l w) by assumption.
    rewrite (status_of_held R l w) by assumption.
    split.
    + unfold shown_iff. fold R A.
      rewrite (request_of_held_is_denied R B ttl l w) by assumption.
      rewrite (status_of_held R l w) by assumption.
      simpl. tauto.
    + simpl. repeat split; try exact Hl.
      * apply (sweep_keeps_live (clock w) l (db w) (db w));
          auto using incl_refl.
      * apply (sweep_keeps_live (clock w) l _ (db w)); auto.
        apply incl_filter.
Qed.

Lemma lease_shown_iff_live_witness :
  let l := ResourceLockSchema.mk "db" "p1" 5 (Some 9) in
  let w := mkWorld [ResourceLockSchema.mk "log" "p1" 1 (Some 2); l] 10 [] in
  let mine := new_lock "db" "p2" (Some 3) 10 in
  shown_iff live "p2" (Some 3) l w /\
  Mongo.lookup "db" (db (snd (post_locks_request "db" "p2" (Some 3) w)))
  = (if expired l (clock w)
     then if storable mine then Some mine else None
     else Some l) /\
  Mongo.lookup "db" (db (snd (get_locks_status "db" w)))
  = (if expired l (clock w) then None else Some l) /\
  Mongo.lookup "db" (db (snd (get_locks_all_locked w)))
  = (if expired l (clock w) then None else Some l) /\
  Mongo.lookup "db" (db (snd (get_locks_process "p1" w)))
  = (if expired l (clock w) then None else Some l).
Proof.
  intros l w mine.
  apply (lease_shown_iff_live "p2" (Some 3) l w).
  - discriminate.
  - discriminate.
  - constructor.
  - repeat constructor; simpl; intuition discriminate.
  - right. left. reflexivity.
Defined.

(** The liveness rule of the data model ([expires_at > now]) is not the one
    the routes follow: a lease whose [expires_at] is exactly [now] is not
    live by that rule, and all four routes still show it as held. *)
Lemma lease_expiring_now_is_shown :
  let l := ResourceLockSchema.mk "db" "p1" 5 (Some 9) in
  let w := mkWorld [l] 9 [] in
  ~ live_in_words l (clock w) /\
  fst (post_locks_request "db" "p2" None w) = inr (Denied "db" "p1") /\
  fst (get_locks_status "db" w) = inr (IsLocked "db" "p1" 5) /\
  fst (get_locks_all_locked w) = inr (AllLocked [("db", "p1", 5)]) /\
  fst (get_locks_process "p1" w) = inr (ProcessLocks [("db", 5)]) /\
  db (snd (get_locks_status "db" w)) = [l] /\
  ~ shown_iff live_in_words "p2" None l w.
Proof.
  intros l w.
  assert (Hnot : ~ live_in_words l (clock w)).
  { unfold live_in_words. simpl. lia. }
  repeat split; try reflexivity; try exact Hnot.
  intros (_ & Hstatus & _). apply Hnot. apply Hstatus.
  simpl. repeat split.
Qed.

(** ** The listing of all locks *)

Lemma solo_tl (s : list Env) : solo s -> solo (tl s).
Proof.
  intros H. destruct s as [|e s]; simpl; [exact H |].
  now inversion H.
Qed.

Lemma calm_solo (s : list Env) : calm s -> solo s.
Proof.
  intros H. induction H as [|e s He Hs IH]; constructor.
  - left. exact He.
  - exact IH.
Qed.

(** When store calls may fail, the loop either fails or ends with the
    entries of the documents that have not expired. *)
Lemma for_of_solo {T} (entry : Lock -> T) (now : Z) (locks : list Lock) :
  forall (acc : list T) (w : World),
    solo (sched w) ->
    match
      fst (for_of locks
             (fun lock validLocks =>
                if expired lock now
                then
                  ResourceLock.deleteOne
                    (ResourceLockSchema.resource_name lock) ;;;
                  ret validLocks
                else ret (validLocks ++ [entry lock]))
             acc w)
    with
    | inr validLocks =>
        validLocks = acc ++ map entry (List.filter (is_live now) locks)
    | inl e => e = StoreDown
    end.
Proof.
  induction locks as [|x locks IH]; intros acc w Hs.
  - simpl. now rewrite app_nil_r.
  - cbn [for_of List.filter]. unfold is_live at 1. unfold bind at 1.
    destruct (expired x now) eqn:E; cbn [negb].
    + unfold bind at 1. unfold ResourceLock.deleteOne at 1.
      destruct (await_solo
                  (fun c => (inr (B := unit) tt,
                             Mongo.remove (ResourceLockSchema.resource_name x)
                                          c)) w Hs)
        as [Ea | Ea]; rewrite Ea; cbn [fst snd ret].
      * apply IH. cbn [sched]. now apply solo_tl.
      * reflexivity.
    + cbn [ret map].
      replace (acc ++ entry x :: map entry (List.filter (is_live now) locks))
        with ((acc ++ [entry x])
                ++ map entry (List.filter (is_live now) locks))
        by now rewrite <- app_assoc.
      now apply IH.
Qed.

Lemma all_locked_solo (w : World) :
  solo (sched w) ->
  fst (get_locks_all_locked w) =
  inr (AllLocked (map all_entry (List.filter (is_live (clock w)) (db w)))) \/
  fst (get_locks_all_locked w) = inr InternalServerError.
Proof.
  intros Hs.
  unfold get_locks_all_locked, try_catch, bind, new_Date, ResourceLock.find.
  simpl.
  match goal with
  | |- context [await ?op w] =>
      destruct (await_solo op w Hs) as [Ea | Ea]; rewrite Ea
  end; simpl; [| now right].
  unfold filter_out_expired.
  match goal with
  | |- context [for_of ?xs ?body ?acc ?w0] =>
      pose proof (for_of_solo all_entry (clock w) xs acc w0) as Hloop;
      destruct (for_of xs body acc w0) as [[e|v] w2]
  end; cbn [fst snd] in *.
  - right. reflexivity.
  - left. rewrite Hloop; [reflexivity |]. cbn [sched]. now apply solo_tl.
Qed.

Lemma filter_live_others (R : string) (now : Z) (c : Collection) :
  (forall x, In x c -> Mongo.named R x = true -> expired x now = true) ->
  List.filter (is_live now) c = List.filter (is_live now) (others R c).
Proof.
  unfold others. induction c as [|x c IH]; intros H; [reflexivity |].
  cbn [List.filter].
  assert (IH' : List.filter (is_live now) c
                = List.filter (is_live now)
                    (List.filter (fun l => negb (Mongo.named R l)) c))
    by (apply IH; intros y Hy; apply H; now right).
  destruct (Mongo.named R x) eqn:En; cbn [negb].
  - unfold is_live at 1. rewrite (H x (or_introl eq_refl) En). exact IH'.
  - cbn [List.filter]. now rewrite IH'.
Qed.

(** C3 (as amended). The list of all locks never holds an expired lease
    (one whose [expires_at] is before the current time): when no store
    call is disturbed it is exactly the entries of the leases of the
    collection that have not expired, and when store calls may fail it is
    that or a 500.  After a request for [R] by [A] with a positive
    [ttl_seconds] was answered 'acquired' and the clock has advanced by
    more than that time to live, the list is the live leases of the other
    resources: it does not contain [R], and is empty if no other lease is
    live. *)
Theorem all_locked_lists_the_live_leases
    (R A : string) (ttl : Z) (env env' env0 : list Env) (w w1 w0 : World)
    (ms : N) :
  Mongo.unique (db w) ->
  serve (Acquire R A (Some ttl)) env w = (inr (Acquired R A), w1) ->
  0 < ttl ->
  ttl * 1000 < Z.of_N ms ->
  calm env' ->
  solo env0 ->
  let live_at := fun t c => map all_entry (List.filter (is_live t) c) in
  fst (serve ListAll env' w0) = inr (AllLocked (live_at (clock w0) (db w0))) /\
  (fst (serve ListAll env0 w0) = inr (AllLocked (live_at (clock w0) (db w0)))
   \/ fst (serve ListAll env0 w0) = inr InternalServerError) /\
  (forall e, In e (live_at (clock w0) (db w0)) ->
             exists l, In l (db w0) /\ e = all_entry l /\
                       expired l (clock w0) = false) /\
  fst (serve ListAll env' (happen (Elapse ms) w1)) =
  inr (AllLocked (live_at (clock w + Z.of_N ms) (others R (db w1)))).
Proof.
  intros Hu Hacq Httl Hms Hcalm Hsolo live_at.
  split; [| split; [| split]].
  - unfold serve. simpl. now rewrite all_locked_calm.
  - unfold serve. simpl.
    apply (all_locked_solo (mkWorld (db w0) (clock w0) env0)). exact Hsolo.
  - intros e He. unfold live_at in He. apply in_map_iff in He.
    destruct He as (l & <- & Hl). apply filter_In in Hl.
    destruct Hl as [Hin Hlive]. exists l. repeat split; [exact Hin |].
    unfold is_live in Hlive. now apply negb_true_iff.
  - unfold serve in Hacq. simpl in Hacq.
    destruct (acquired_is_stored R A (Some ttl) _ w1 _ Hacq eq_refl)
      as [_ Hl].
    simpl in Hl.
    assert (Hu1 : Mongo.unique (db w1)).
    { change w1 with (snd (inr (A := exn) (Acquired R A), w1)).
      rewrite <- Hacq.
      apply (inv_route_unique (Acquire R A (Some ttl)) (clock w)
               (mkWorld (db w) (clock w) env)).
      repeat split; [| exact Hu]. apply Forall_forall.
      intros; exact Logic.I. }
    assert (Hc1 : clock w1 = clock w).
    { change w1 with (snd (inr (A := exn) (Acquired R A), w1)).
      rewrite <- Hacq.
      apply (route_clock (Acquire R A (Some ttl))
               (mkWorld (db w) (clock w) env)). }
    unfold serve. simpl. rewrite all_locked_calm by exact Hcalm.
    simpl. rewrite Hc1. unfold live_at.
    rewrite (filter_live_others R (clock w + Z.of_N ms) (db w1));
      [reflexivity |].
    intros x Hx Hname. apply named_iff in Hname.
    pose proof (unique_lookup (db w1) x Hu1 Hx) as Hfx.
    rewrite Hname, Hl in Hfx. injection Hfx as <-.
    unfold expired, new_lock, ttl_given. simpl.
    assert ((ttl =? 0) = false) as -> by (apply Z.eqb_neq; lia).
    apply Z.ltb_lt. lia.
Qed.

Lemma all_locked_lists_the_live_leases_witness :
  let w := mkWorld [ResourceLockSchema.mk "log" "p2" 1 None] 100 [] in
  let w1 := snd (serve (Acquire "db" "p1" (Some 2)) [] w) in
  let w0 := mkWorld [ResourceLockSchema.mk "log" "p2" 1 (Some 50);
                     ResourceLockSchema.mk "db" "p1" 2 (Some 100);
                     ResourceLockSchema.mk "tmp" "p3" 3 None] 100 [] in
  let live_at := fun t c => map all_entry (List.filter (is_live t) c) in
  fst (serve ListAll [Calm] w0)
  = inr (AllLocked (live_at (clock w0) (db w0))) /\
  (fst (serve ListAll [Calm; Outage] w0)
   = inr (AllLocked (live_at (clock w0) (db w0)))
   \/ fst (serve ListAll [Calm; Outage] w0) = inr InternalServerError) /\
  (forall e, In e (live_at (clock w0) (db w0)) ->
             exists l, In l (db w0) /\ e = all_entry l /\
                       expired l (clock w0) = false) /\
  fst (serve ListAll [Calm] (happen (Elapse 2001) w1)) =
  inr (AllLocked (live_at (clock w + Z.of_N 2001) (others "db" (db w1)))).
Proof.
  intros w w1 w0 live_at.
  apply (all_locked_lists_the_live_leases "db" "p1" 2 [] [Calm]
           [Calm; Outage] w w1 w0 2001).
  - repeat constructor. simpl. tauto.
  - reflexivity.
  - lia.
  - reflexivity.
  - schedule_ok.
  - schedule_ok.
Defined.

(** A request with [ttl_seconds = 0] stores no expiry (0 is falsy in
    [ttl_seconds ? ... : null]): the lease it creates is still listed
    however far the clock advances. *)
Lemma zero_ttl_lease_stays_listed :
  let w := mkWorld [] 0 [] in
  let w1 := snd (serve (Acquire "db" "p1" (Some 0)) [] w) in
  fst (serve (Acquire "db" "p1" (Some 0)) [] w) = inr (Acquired "db" "p1") /\
  db w1 = [ResourceLockSchema.mk "db" "p1" 0 None] /\
  fst (serve ListAll [] (happen (Elapse 1) w1))
  = inr (AllLocked [("db", "p1", 0)]) /\
  fst (serve ListAll [] (happen (Elapse 1000000000000) w1))
  = inr (AllLocked [("db", "p1", 0)]).
Proof. repeat split. Qed.

(** ** A reclamation that fails *)

Lemma await_Calm {A} (op : Collection -> (exn + A) * Collection)
    (w : World) (s : list Env) :
  sched w = Calm :: s ->
  await op w = (fst (op (db w)), mkWorld (snd (op (db w))) (clock w) s).
Proof.
  intros H. unfold await. rewrite H. simpl. now destruct (op (db w)).
Qed.

Lemma await_Outage {A} (op : Collection -> (exn + A) * Collection)
    (w : World) (s : list Env) :
  sched w = Outage :: s ->
  await op w = (inl StoreDown, mkWorld (db w) (clock w) s).
Proof. intros H. unfold await. now rewrite H. Qed.

(** The loop of a listing stops at the first deletion that fails: the
    [k] deletions before it were done, and the error is thrown. *)
Lemma for_of_outage {T} (entry : Lock -> T) (now : Z) (locks : list Lock) :
  forall (k : nat) (acc : list T) (w : World) (rest : list Env),
    sched w = repeat Calm k ++ Outage :: rest ->
    (k < List.length (List.filter (is_expired now) locks))%nat ->
    for_of locks
      (fun lock validLocks =>
         if expired lock now
         then
           ResourceLock.deleteOne (ResourceLockSchema.resource_name lock) ;;;
           ret validLocks
         else ret (validLocks ++ [entry lock]))
      acc w =
    (inl StoreDown,
     mkWorld (sweep (firstn k (List.filter (is_expired now) locks)) (db w))
             (clock w) rest).
Proof.
  induction locks as [|x locks IH]; intros k acc w rest Hs Hk.
  - simpl in Hk. lia.
  - cbn [for_of List.filter] in *. unfold is_expired at 1. unfold bind at 1.
    unfold is_expired at 1 in Hk.
    destruct (expired x now) eqn:E.
    + unfold bind at 1. unfold ResourceLock.deleteOne at 1.
      destruct k as [|k]; cbn [repeat app] in Hs.
      * rewrite (await_Outage _ w rest Hs). now destruct w.
      * rewrite (await_Calm _ w _ Hs). cbn [fst snd ret].
        cbn [List.length] in Hk.
        rewrite (IH k acc _ rest); [reflexivity | reflexivity | lia].
    + cbn [ret]. now apply IH.
Qed.

(** C9 (as amended). When, during a status, a list of all locks or a list
    of the locks of a process, the deletion that reclaims an expired lease
    fails with a store error, the route answers 500 'Internal server
    error': no lock state and no listing is returned. *)
Theorem failed_reclamation_is_a_server_error
    (R pid : string) (l : Lock) (w : World) (k kp : nat) (rest : list Env) :
  Mongo.lookup R (db w) = Some l ->
  expired l (clock w) = true ->
  (k < List.length (List.filter (is_expired (clock w)) (db w)))%nat ->
  (kp < List.length (List.filter (is_expired (clock w))
                       (List.filter (Mongo.owned pid) (db w))))%nat ->
  serve (Status R) (Calm :: Outage :: rest) w =
  (inr InternalServerError, mkWorld (db w) (clock w) rest) /\
  fst (serve ListAll (Calm :: repeat Calm k ++ Outage :: rest) w)
  = inr InternalServerError /\
  fst (serve (ListByHolder pid) (Calm :: repeat Calm kp ++ Outage :: rest) w)
  = inr InternalServerError.
Proof.
  intros Hl He Hk Hkp. unfold serve. simpl. split; [| split].
  - unfold get_locks_status, try_catch, bind, ResourceLock.findOne,
      ResourceLock.deleteOne.
    simpl. rewrite Hl. unfold new_Date. simpl. rewrite He. reflexivity.
  - unfold get_locks_all_locked, try_catch, bind, new_Date,
      ResourceLock.find.
    simpl. unfold filter_out_expired.
    erewrite for_of_outage; [reflexivity | reflexivity | exact Hk].
  - unfold get_locks_process, try_catch, bind, new_Date,
      ResourceLock.find_by.
    simpl. unfold filter_out_expired.
    erewrite for_of_outage; [reflexivity | reflexivity | exact Hkp].
Qed.

Lemma failed_reclamation_is_a_server_error_witness :
  let a := ResourceLockSchema.mk "log" "p1" 1 (Some 2) in
  let b := ResourceLockSchema.mk "db" "p1" 5 (Some 9) in
  let w := mkWorld [a; b] 10 [] in
  serve (Status "db") [Calm; Outage; Calm] w =
  (inr InternalServerError, mkWorld [a; b] 10 [Calm]) /\
  fst (serve ListAll [Calm; Calm; Outage; Calm] w) = inr InternalServerError /\
  fst (serve (ListByHolder "p1") [Calm; Outage; Calm] w)
  = inr InternalServerError.
Proof.
  intros a b w.
  apply (failed_reclamation_is_a_server_error "db" "p1" b w 1 0 [Calm]).
  - reflexivity.
  - reflexivity.
  - simpl. lia.
  - simpl. lia.
Defined.

(** An expired lease whose reclamation fails is not reported unlocked and
    is not left out of a listing: the three reads answer 500 instead. *)
Lemma failed_reclamation_fails_the_read :
  let l := ResourceLockSchema.mk "db" "p1" 5 (Some 9) in
  let w := mkWorld [l] 10 [Calm; Outage] in
  expired l (clock w) = true /\
  fst (get_locks_status "db" w) = inr InternalServerError /\
  fst (get_locks_status "db" w) <> inr (IsUnlocked "db") /\
  fst (get_locks_all_locked w) = inr InternalServerError /\
  fst (get_locks_all_locked w) <> inr (AllLocked []) /\
  fst (get_locks_process "p1" w) = inr InternalServerError /\
  fst (get_locks_process "p1" w) <> inr (ProcessLocks []).
Proof. repeat split; discriminate. Qed.

(** ** Losing the race for the insert *)

(** A request that found no document, whose own document is valid, and
    whose insert is refused by the index because another request inserted
    first, reads the document again and answers 'denied' with its
    holder. *)
Lemma lost_race_is_denied
    (R B : string) (ttl : option Z) (l : Lock) (w : World) (s : list Env) :
  R <> EmptyString -> B <> EmptyString ->
  Mongo.lookup R (db w) = None ->
  ResourceLockSchema.resource_name l = R ->
  storable (new_lock R B ttl (clock w)) = true ->
  sched w = Calm :: Rival [Save l] :: Calm :: s ->
  post_locks_request R B ttl w =
  (inr (Denied R (ResourceLockSchema.process_id_str l)),
   mkWorld (db w ++ [l]) (clock w) s).
Proof.
  intros HR HB Hnone Hname Hst Hs.
  assert (Hins : Mongo.insert l (db w) = Some (db w ++ [l])).
  { apply insert_absent. now rewrite Hname. }
  assert (Hl : Mongo.lookup R (db w ++ [l]) = Some l).
  { rewrite <- Hname. now apply (lookup_insert l (db w)). }
  unfold post_locks_request. rewrite (valid_input R B HR HB).
  unfold try_catch, bind, ResourceLock.findOne.
  rewrite (await_Calm _ w _ Hs). simpl. rewrite Hnone.
  unfold new_Date. simpl.
  rewrite save_new, Hst. unfold ResourceLock.insertOne.
  unfold await at 1. simpl. rewrite Hins.
  rewrite (insert_present _ l) by exact Hl. simpl.
  unfold await. simpl. now rewrite Hl.
Qed.

(** C7. The insert of a request is refused by the index (another request
    inserted a lock for the resource after the read), and that lock is
    deleted again before the request reads the document a second time:
    the handler reads [process_id_str] of [null] inside its [catch] and
    throws; the request is not answered 'denied'. *)
Theorem lost_race_then_release_throws :
  let w := mkWorld [] 0
             [Calm;
              Rival [Save (ResourceLockSchema.mk "db" "p1" 0 None)];
              Rival [Delete "db"]] in
  post_locks_request "db" "p2" None w = (inl TypeError, mkWorld [] 0 []).
Proof. reflexivity. Qed.

(** ** Overlapping requests *)

(** C1. Two requests for one resource overlap and both are answered
    'acquired'.  The document of the resource is an expired lease.  The
    request of [p2] reads it; before the [deleteOne] of [p2] is served, the
    request of [p1] runs from its read to its answer: it deletes the
    expired lease, saves its own lock (no [ttl_seconds]: it never expires)
    and is answered 'acquired'.  The [deleteOne] of [p2] then deletes by
    name, so it removes the lock of [p1]; the [save] of [p2] succeeds and
    [p2] is answered 'acquired', while the lease of [p1] was neither
    released nor expired.  The collection holds one document for the
    resource at every step. *)
Theorem overlapping_requests_both_acquire :
  let old := ResourceLockSchema.mk "db" "p0" 0 (Some 5) in
  let fresh := ResourceLockSchema.mk "db" "p1" 10 None in
  let w := mkWorld [old] 10 [] in
  serve (Acquire "db" "p1" None) [Calm; Calm; Calm] w
  = (inr (Acquired "db" "p1"), mkWorld [fresh] 10 []) /\
  fold_left (fun c x => write x c) [Delete "db"; Save fresh] (db w)
  = [fresh] /\
  live fresh 10 /\
  serve (Acquire "db" "p2" None)
        [Calm; Rival [Delete "db"; Save fresh]; Calm] w
  = (inr (Acquired "db" "p2"),
     mkWorld [ResourceLockSchema.mk "db" "p2" 10 None] 10 []).
Proof. repeat split. Qed.

(** * Further properties of the routes *)

(** ** Acquiring a free resource *)

(** X1. A request for a resource that has no document, with well-formed
    fields, a [ttl_seconds] that is absent or not negative and dates that
    are valid (the current time and, with a [ttl_seconds], the expiry lie
    in the range of a [Date]), is answered
    'acquired'; the collection is the old one followed by the new lock
    ([locked_at] the current time, [expires_at] that time plus
    [ttl_seconds * 1000], or null when [ttl_seconds] is absent or 0); the
    status asked at once is locked by the requester since that time. *)
Theorem acquire_free_then_status
    (R A : string) (ttl : option Z) (env env' : list Env) (w : World) :
  R <> EmptyString -> A <> EmptyString ->
  calm env -> calm env' ->
  Mongo.lookup R (db w) = None ->
  match ttl with Some t => 0 <= t | None => True end ->
  storable (new_lock R A ttl (clock w)) = true ->
  serve (Acquire R A ttl) env w =
  (inr (Acquired R A),
   mkWorld (db w ++ [new_lock R A ttl (clock w)]) (clock w) (tl (tl env))) /\
  serve (Status R) env' (snd (serve (Acquire R A ttl) env w)) =
  (inr (IsLocked R A (clock w)),
   mkWorld (db w ++ [new_lock R A ttl (clock w)]) (clock w) (tl env')).
Proof.
  intros HR HA Hcalm Hcalm' Hnone Httl Hst.
  assert (Hacq : serve (Acquire R A ttl) env w =
                 (inr (Acquired R A),
                  mkWorld (db w ++ [new_lock R A ttl (clock w)]) (clock w)
                          (tl (tl env)))).
  { unfold serve. cbn [route].
    now rewrite (request_of_absent R A ttl (mkWorld (db w) (clock w) env)
                   HR HA Hcalm Hnone Hst). }
  split; [exact Hacq |].
  rewrite Hacq. unfold serve. cbn [route snd db clock].
  rewrite (status_of_held R (new_lock R A ttl (clock w))).
  - reflexivity.
  - exact Hcalm'.
  - cbn [db].
    change R with
      (ResourceLockSchema.resource_name (new_lock R A ttl (clock w))) at 1.
    apply (lookup_insert _ (db w)). now apply insert_absent.
  - cbn [clock]. unfold live, new_lock, ttl_given. cbn.
    destruct ttl as [t|]; [| exact Logic.I].
    destruct (t =? 0); [exact Logic.I | lia].
Qed.

Lemma acquire_free_then_status_witness :
  let a := ResourceLockSchema.mk "log" "p1" 1 None in
  let w := mkWorld [a] 100 [] in
  serve (Acquire "db" "p2" (Some 30)) [Calm; Calm] w =
  (inr (Acquired "db" "p2"),
   mkWorld [a; ResourceLockSchema.mk "db" "p2" 100 (Some 30100)] 100 []) /\
  serve (Status "db") [Calm]
        (snd (serve (Acquire "db" "p2" (Some 30)) [Calm; Calm] w)) =
  (inr (IsLocked "db" "p2" 100),
   mkWorld [a; ResourceLockSchema.mk "db" "p2" 100 (Some 30100)] 100 []).
Proof.
  intros a w.
  apply (acquire_free_then_status "db" "p2" (Some 30) [Calm; Calm] [Calm] w).
  - discriminate.
  - discriminate.
  - schedule_ok.
  - schedule_ok.
  - reflexivity.
  - lia.
  - reflexivity.
Defined.

(** ** Release looks at the holder only *)

Lemma others_absent (name : string) (c : Collection) :
  Mongo.lookup name c = None -> others name c = c.
Proof.
  unfold Mongo.lookup, others. induction c as [|x c IH]; [reflexivity |].
  cbn [List.find List.filter].
  destruct (Mongo.named name x); [discriminate |].
  intros H. cbn [negb]. now rewrite IH.
Qed.

(** Under the index, deleting by name removes every document of that
    name: there is one at most. *)
Lemma remove_unique (name : string) (c : Collection) :
  Mongo.unique c -> Mongo.remove name c = others name c.
Proof.
  unfold Mongo.unique. induction c as [|x c IH]; intros Hu; [reflexivity |].
  inversion Hu as [|? ? Hnotin Hnd]; subst.
  unfold others in *. cbn [Mongo.remove List.filter map] in *.
  destruct (Mongo.named name x) eqn:E; cbn [negb].
  - apply named_iff in E. subst name. symmetry.
    apply (others_absent (ResourceLockSchema.resource_name x) c).
    now apply lookup_not_in.
  - now rewrite IH.
Qed.

(** X2. A release by the holder, with well-formed fields and undisturbed
    store calls, is answered 'released' whether or not the lease has
    expired; the document of the resource is deleted and no other; the
    status asked next is unlocked, and a second release by the same
    process is answered 404 'resource_not_locked'. *)
Theorem release_by_holder_unlocks
    (R A : string) (l : Lock) (env : list Env) (w : World) :
  R <> EmptyString -> A <> EmptyString ->
  calm env ->
  Mongo.unique (db w) ->
  Mongo.lookup R (db w) = Some l ->
  ResourceLockSchema.process_id_str l = A ->
  let w1 := snd (serve (Release R A) env w) in
  fst (serve (Release R A) env w) = inr (Released R) /\
  db w1 = others R (db w) /\
  fst (serve (Status R) env w1) = inr (IsUnlocked R) /\
  serve (Release R A) env w1 =
  (inr (NotLocked R), mkWorld (db w1) (clock w1) (tl env)).
Proof.
  intros HR HA Hcalm Hu Hl Hpid w1. subst w1.
  unfold serve. cbn [route].
  rewrite (release_by_holder R A l) by assumption.
  cbn [fst snd db clock].
  assert (Hgone : Mongo.lookup R (Mongo.remove R (db w)) = None)
    by now apply unique_lookup_remove.
  repeat split.
  - now apply remove_unique.
  - now rewrite status_of_absent.
  - unfold post_locks_release. rewrite (valid_input R A HR HA).
    unfold try_catch, bind, ResourceLock.findOne.
    rewrite await_calm by exact Hcalm. cbn [fst snd db clock sched].
    now rewrite Hgone.
Qed.

Lemma release_by_holder_unlocks_witness :
  let a := ResourceLockSchema.mk "log" "p1" 1 None in
  let b := ResourceLockSchema.mk "db" "p1" 5 (Some 9) in
  let w := mkWorld [a; b] 50 [] in
  let w1 := snd (serve (Release "db" "p1") [] w) in
  fst (serve (Release "db" "p1") [] w) = inr (Released "db") /\
  db w1 = others "db" (db w) /\
  fst (serve (Status "db") [] w1) = inr (IsUnlocked "db") /\
  serve (Release "db" "p1") [] w1 =
  (inr (NotLocked "db"), mkWorld (db w1) (clock w1) (tl [])).
Proof.
  intros a b w.
  apply (release_by_holder_unlocks "db" "p1" b [] w).
  - discriminate.
  - discriminate.
  - schedule_ok.
  - repeat constructor; simpl; intuition discriminate.
  - reflexivity.
  - reflexivity.
Defined.

(** X3. A release never reclaims.  When the document of [R] is an expired
    lease of another process, a release by [B] is answered 403
    'not_locked_by_process' and the expired document stays; the status
    asked next reports the resource unlocked and deletes the document. *)
Theorem release_of_expired_by_other_is_forbidden
    (R B : string) (l : Lock) (env : list Env) (w : World) :
  R <> EmptyString -> B <> EmptyString ->
  calm env ->
  Mongo.lookup R (db w) = Some l ->
  ResourceLockSchema.process_id_str l <> B ->
  expired l (clock w) = true ->
  serve (Release R B) env w =
  (inr (NotLockedByProcess R), mkWorld (db w) (clock w) (tl env)) /\
  serve (Status R) env (snd (serve (Release R B) env w)) =
  (inr (IsUnlocked R),
   mkWorld (Mongo.remove R (db w)) (clock w) (tl (tl env))).
Proof.
  intros HR HB Hcalm Hl Hpid He.
  assert (Hrel : serve (Release R B) env w =
                 (inr (NotLockedByProcess R),
                  mkWorld (db w) (clock w) (tl env))).
  { unfold serve. cbn [route].
    unfold post_locks_release. rewrite (valid_input R B HR HB).
    unfold try_catch, bind, ResourceLock.findOne.
    rewrite await_calm by exact Hcalm. cbn [fst snd db clock sched].
    rewrite Hl.
    assert (String.eqb (ResourceLockSchema.process_id_str l) B = false)
      as -> by now apply String.eqb_neq.
    reflexivity. }
  split; [exact Hrel |].
  rewrite Hrel. unfold serve. cbn [route snd db clock].
  now rewrite (status_of_expired R l).
Qed.

Lemma release_of_expired_by_other_is_forbidden_witness :
  let b := ResourceLockSchema.mk "db" "p1" 5 (Some 9) in
  let w := mkWorld [b] 50 [] in
  serve (Release "db" "p2") [Calm; Calm] w =
  (inr (NotLockedByProcess "db"), mkWorld [b] 50 [Calm]) /\
  serve (Status "db") [Calm; Calm]
        (snd (serve (Release "db" "p2") [Calm; Calm] w)) =
  (inr (IsUnlocked "db"), mkWorld [] 50 []).
Proof.
  intros b w.
  apply (release_of_expired_by_other_is_forbidden "db" "p2" b [Calm; Calm] w).
  - discriminate.
  - discriminate.
  - schedule_ok.
  - reflexivity.
  - discriminate.
  - reflexivity.
Defined.

(** ** The life of a lease with a time to live *)

Lemma remove_appended (l : Lock) (c : Collection) :
  Mongo.lookup (ResourceLockSchema.resource_name l) c = None ->
  Mongo.remove (ResourceLockSchema.resource_name l) (c ++ [l]) = c.
Proof.
  unfold Mongo.lookup. induction c as [|x c IH]; cbn [app Mongo.remove find].
  - intros _. unfold Mongo.named. now rewrite String.eqb_refl.
  - destruct (Mongo.named (ResourceLockSchema.resource_name l) x);
      [discriminate |].
    intros H. now rewrite IH.
Qed.

(** The world that a request for a free resource leaves, some time later. *)
Lemma acquired_then_elapsed
    (R A : string) (ttl : option Z) (env : list Env) (w : World) (ms : N) :
  R <> EmptyString -> A <> EmptyString ->
  calm env -> Mongo.unique (db w) ->
  Mongo.lookup R (db w) = None ->
  storable (new_lock R A ttl (clock w)) = true ->
  let l := new_lock R A ttl (clock w) in
  let w2 := happen (Elapse ms) (snd (serve (Acquire R A ttl) env w)) in
  db w2 = db w ++ [l] /\ clock w2 = clock w + Z.of_N ms /\
  Mongo.unique (db w2) /\ Mongo.lookup R (db w2) = Some l.
Proof.
  intros HR HA Hcalm Hu Hnone Hst l w2. subst w2.
  unfold serve. cbn [route].
  rewrite (request_of_absent R A ttl (mkWorld (db w) (clock w) env)
             HR HA Hcalm Hnone Hst).
  cbn [snd happen db clock]. fold l.
  assert (Hins : Mongo.insert l (db w) = Some (db w ++ [l]))
    by now apply insert_absent.
  repeat split.
  - now apply (unique_insert l (db w)).
  - change R with (ResourceLockSchema.resource_name l) at 1.
    now apply (lookup_insert l (db w)).
Qed.

(** X4. A lease acquired on a free resource with a positive [ttl_seconds]
    (its dates, and those of the lock requested later, being valid)
    lives for that time: as long as no more than [ttl_seconds * 1000]
    milliseconds have passed, the status is locked by its holder and
    a request by another process is denied; once more have passed, the
    status is unlocked and deletes the document (the collection is the one
    from before the lease), and a request by another process is answered
    'acquired', its lock replacing the expired one. *)
Theorem lease_lives_for_its_ttl
    (R A B : string) (ttl : Z) (ttl' : option Z) (env : list Env)
    (w : World) (ms1 ms2 : N) :
  R <> EmptyString -> A <> EmptyString -> B <> EmptyString ->
  calm env -> Mongo.unique (db w) ->
  Mongo.lookup R (db w) = None ->
  0 < ttl ->
  Z.of_N ms1 <= ttl * 1000 ->
  ttl * 1000 < Z.of_N ms2 ->
  storable (new_lock R A (Some ttl) (clock w)) = true ->
  storable (new_lock R B ttl' (clock w + Z.of_N ms2)) = true ->
  let w1 := snd (serve (Acquire R A (Some ttl)) env w) in
  fst (serve (Status R) env (happen (Elapse ms1) w1))
  = inr (IsLocked R A (clock w)) /\
  fst (serve (Acquire R B ttl') env (happen (Elapse ms1) w1))
  = inr (Denied R A) /\
  fst (serve (Status R) env (happen (Elapse ms2) w1)) = inr (IsUnlocked R) /\
  db (snd (serve (Status R) env (happen (Elapse ms2) w1))) = db w /\
  fst (serve (Acquire R B ttl') env (happen (Elapse ms2) w1))
  = inr (Acquired R B) /\
  db (snd (serve (Acquire R B ttl') env (happen (Elapse ms2) w1)))
  = db w ++ [new_lock R B ttl' (clock w + Z.of_N ms2)].
Proof.
  intros HR HA HB Hcalm Hu Hnone Httl Hms1 Hms2 HstA HstB w1. subst w1.
  set (l := new_lock R A (Some ttl) (clock w)).
  assert (Hexp : ResourceLockSchema.expires_at l = Some (clock w + ttl * 1000)).
  { unfold l, new_lock, ttl_given.
    assert ((ttl =? 0) = false) as -> by (apply Z.eqb_neq; lia).
    reflexivity. }
  destruct (acquired_then_elapsed R A (Some ttl) env w ms1
              HR HA Hcalm Hu Hnone HstA) as (Hdb1 & Hc1 & Hu1 & Hl1).
  destruct (acquired_then_elapsed R A (Some ttl) env w ms2
              HR HA Hcalm Hu Hnone HstA) as (Hdb2 & Hc2 & Hu2 & Hl2).
  fold l in Hdb1, Hl1, Hdb2, Hl2.
  set (wa := happen (Elapse ms1) (snd (serve (Acquire R A (Some ttl)) env w)))
    in *.
  set (wb := happen (Elapse ms2) (snd (serve (Acquire R A (Some ttl)) env w)))
    in *.
  assert (Hlive : live l (clock wa)).
  { unfold live. rewrite Hexp, Hc1. lia. }
  assert (Hdead : expired l (clock wb) = true).
  { unfold expired. rewrite Hexp, Hc2. apply Z.ltb_lt. lia. }
  assert (Hrem : Mongo.remove R (db wb) = db w).
  { rewrite Hdb2.
    change R with (ResourceLockSchema.resource_name l) at 1.
    now apply remove_appended. }
  assert (HstB' : storable (new_lock R B ttl' (clock wb)) = true)
    by now rewrite Hc2.
  unfold serve. cbn [route].
  rewrite (status_of_held R l (mkWorld (db wa) (clock wa) env))
    by assumption.
  rewrite (request_of_held_is_denied R B ttl' l
             (mkWorld (db wa) (clock wa) env)) by assumption.
  rewrite (status_of_expired R l (mkWorld (db wb) (clock wb) env))
    by assumption.
  rewrite (request_of_expired R B ttl' l (mkWorld (db wb) (clock wb) env))
    by assumption.
  cbn [fst snd db clock]. rewrite Hrem, Hc2.
  repeat split.
Qed.

Lemma lease_lives_for_its_ttl_witness :
  let a := ResourceLockSchema.mk "log" "p1" 1 None in
  let w := mkWorld [a] 100 [] in
  let w1 := snd (serve (Acquire "db" "p1" (Some 2)) [] w) in
  fst (serve (Status "db") [] (happen (Elapse 2000) w1))
  = inr (IsLocked "db" "p1" 100) /\
  fst (serve (Acquire "db" "p2" None) [] (happen (Elapse 2000) w1))
  = inr (Denied "db" "p1") /\
  fst (serve (Status "db") [] (happen (Elapse 2001) w1))
  = inr (IsUnlocked "db") /\
  db (snd (serve (Status "db") [] (happen (Elapse 2001) w1))) = [a] /\
  fst (serve (Acquire "db" "p2" None) [] (happen (Elapse 2001) w1))
  = inr (Acquired "db" "p2") /\
  db (snd (serve (Acquire "db" "p2" None) [] (happen (Elapse 2001) w1)))
  = [a] ++ [new_lock "db" "p2" None (100 + Z.of_N 2001)].
Proof.
  intros a w.
  apply (lease_lives_for_its_ttl "db" "p1" "p2" 2 None [] w 2000 2001).
  - discriminate.
  - discriminate.
  - discriminate.
  - schedule_ok.
  - repeat constructor; simpl; intuition discriminate.
  - reflexivity.
  - lia.
  - lia.
  - lia.
  - reflexivity.
  - reflexivity.
Defined.

(** X5. A negative [ttl_seconds] is accepted (as long as the expiry it
    gives is still a valid date): the request is answered
    'acquired', and the lease it stores is already expired; at the same
    instant the status reports the resource unlocked and deletes the
    document, and a request by another process is answered 'acquired'. *)
Theorem negative_ttl_lease_is_born_expired
    (R A B : string) (ttl : Z) (ttl' : option Z) (env : list Env)
    (w : World) :
  R <> EmptyString -> A <> EmptyString -> B <> EmptyString ->
  calm env -> Mongo.unique (db w) ->
  Mongo.lookup R (db w) = None ->
  ttl < 0 ->
  storable (new_lock R A (Some ttl) (clock w)) = true ->
  storable (new_lock R B ttl' (clock w)) = true ->
  let w1 := snd (serve (Acquire R A (Some ttl)) env w) in
  fst (serve (Acquire R A (Some ttl)) env w) = inr (Acquired R A) /\
  db w1 = db w ++ [ResourceLockSchema.mk R A (clock w)
                     (Some (clock w + ttl * 1000))] /\
  fst (serve (Status R) env w1) = inr (IsUnlocked R) /\
  db (snd (serve (Status R) env w1)) = db w /\
  fst (serve (Acquire R B ttl') env w1) = inr (Acquired R B).
Proof.
  intros HR HA HB Hcalm Hu Hnone Httl HstA HstB w1. subst w1.
  set (l := new_lock R A (Some ttl) (clock w)).
  assert (Hl : l = ResourceLockSchema.mk R A (clock w)
                     (Some (clock w + ttl * 1000))).
  { unfold l, new_lock, ttl_given.
    assert ((ttl =? 0) = false) as -> by (apply Z.eqb_neq; lia).
    reflexivity. }
  destruct (acquired_then_elapsed R A (Some ttl) env w 0
              HR HA Hcalm Hu Hnone HstA) as (Hdb & _ & Hu1 & Hl1).
  cbn [happen] in Hdb, Hu1, Hl1. cbn [db] in Hdb, Hu1, Hl1.
  fold l in Hdb, Hl1.
  set (w1 := snd (serve (Acquire R A (Some ttl)) env w)) in *.
  assert (Hc : clock w1 = clock w).
  { unfold w1, serve.
    apply (route_clock (Acquire R A (Some ttl))
             (mkWorld (db w) (clock w) env)). }
  assert (Hdead : expired l (clock w1) = true).
  { rewrite Hl, Hc. unfold expired. cbn. apply Z.ltb_lt. lia. }
  assert (Hrem : Mongo.remove R (db w1) = db w).
  { rewrite Hdb.
    change R with (ResourceLockSchema.resource_name l) at 1.
    now apply remove_appended. }
  assert (HstB' : storable (new_lock R B ttl' (clock w1)) = true)
    by now rewrite Hc.
  split.
  { unfold w1, serve. cbn [route].
    now rewrite (request_of_absent R A (Some ttl)
                   (mkWorld (db w) (clock w) env) HR HA Hcalm Hnone HstA). }
  split; [now rewrite Hdb, Hl |].
  unfold serve. cbn [route].
  rewrite (status_of_expired R l (mkWorld (db w1) (clock w1) env))
    by assumption.
  rewrite (request_of_expired R B ttl' l (mkWorld (db w1) (clock w1) env))
    by assumption.
  cbn [fst snd db]. rewrite Hrem. repeat split.
Qed.

Lemma negative_ttl_lease_is_born_expired_witness :
  let w := mkWorld [] 100 [] in
  let w1 := snd (serve (Acquire "db" "p1" (Some (-1))) [] w) in
  fst (serve (Acquire "db" "p1" (Some (-1))) [] w)
  = inr (Acquired "db" "p1") /\
  db w1 = [] ++ [ResourceLockSchema.mk "db" "p1" 100
                   (Some (100 + (-1) * 1000))] /\
  fst (serve (Status "db") [] w1) = inr (IsUnlocked "db") /\
  db (snd (serve (Status "db") [] w1)) = [] /\
  fst (serve (Acquire "db" "p2" None) [] w1) = inr (Acquired "db" "p2").
Proof.
  intros w.
  apply (negative_ttl_lease_is_born_expired "db" "p1" "p2" (-1) None [] w).
  - discriminate.
  - discriminate.
  - discriminate.
  - schedule_ok.
  - constructor.
  - reflexivity.
  - lia.
  - reflexivity.
  - reflexivity.
Defined.

(** ** What the listings delete *)

Lemma filter_filter_and {A} (f g : A -> bool) (c : list A) :
  List.filter f (List.filter g c) = List.filter (fun x => g x && f x) c.
Proof.
  induction c as [|x c IH]; [reflexivity |].
  cbn [List.filter]. destruct (g x); cbn [andb List.filter].
  - destruct (f x); now rewrite IH.
  - exact IH.
Qed.

Lemma filter_all {A} (f : A -> bool) (c : list A) :
  (forall x, In x c -> f x = true) -> List.filter f c = c.
Proof.
  induction c as [|x c IH]; intros H; [reflexivity |].
  cbn [List.filter]. rewrite (H x (or_introl eq_refl)).
  rewrite IH; [reflexivity |]. intros y Hy. apply H. now right.
Qed.

Lemma filter_none {A} (f : A -> bool) (c : list A) :
  (forall x, In x c -> f x = false) -> List.filter f c = [].
Proof.
  induction c as [|x c IH]; intros H; [reflexivity |].
  cbn [List.filter]. rewrite (H x (or_introl eq_refl)).
  apply IH. intros y Hy. apply H. now right.
Qed.

(** Under the index, the deletions of a listing remove the documents whose
    name is the name of a document that was found expired. *)
Lemma sweep_unique (xs : list Lock) (c : Collection) :
  Mongo.unique c ->
  sweep xs c =
  List.filter
    (fun l => negb (existsb
                      (fun x => Mongo.named
                                  (ResourceLockSchema.resource_name x) l)
                      xs))
    c.
Proof.
  revert c. induction xs as [|x xs IH]; intros c Hu.
  - cbn [sweep fold_left existsb negb]. symmetry. now apply filter_all.
  - change (sweep (x :: xs) c)
      with (sweep xs (Mongo.remove (ResourceLockSchema.resource_name x) c)).
    rewrite IH by now apply unique_remove.
    rewrite (remove_unique _ c Hu). unfold others.
    rewrite filter_filter_and. apply filter_ext.
    intros l. cbn [existsb]. now rewrite negb_orb.
Qed.

Lemma swept_member (xs : list Lock) (c : Collection) (l : Lock) :
  Mongo.unique c -> incl xs c -> In l c ->
  existsb (fun x => Mongo.named (ResourceLockSchema.resource_name x) l) xs
  = true <-> In l xs.
Proof.
  intros Hu Hincl Hl. rewrite existsb_exists. split.
  - intros (x & Hx & Hn). apply named_iff in Hn.
    assert (l = x) as -> by (apply (unique_same_name c); auto).
    exact Hx.
  - intros Hin. exists l. split; [exact Hin |].
    unfold Mongo.named. apply String.eqb_refl.
Qed.

(** Under the index, a listing leaves the documents it found, less the
    ones it found expired. *)
Lemma sweep_expired (now : Z) (keep : Lock -> bool) (c : Collection) :
  Mongo.unique c ->
  sweep (List.filter (is_expired now) (List.filter keep c)) c =
  List.filter (fun l => negb (keep l && is_expired now l)) c.
Proof.
  intros Hu. rewrite (sweep_unique _ c Hu). apply filter_ext_in.
  intros l Hl. f_equal.
  assert (Hincl : incl (List.filter (is_expired now) (List.filter keep c)) c).
  { intros x Hx. apply filter_In in Hx. destruct Hx as [Hx _].
    now apply filter_In in Hx. }
  pose proof (swept_member _ c l Hu Hincl Hl) as Hiff.
  rewrite !filter_In in Hiff.
  destruct (existsb _ _); destruct (keep l); destruct (is_expired now l);
    cbn [andb]; try reflexivity; exfalso;
    (assert (true = true) as Ht by reflexivity);
    intuition discriminate.
Qed.

(** X6. The list of the locks of a process, when no store call is
    disturbed and the index holds, is the entries [(resource_name,
    locked_at)] of the documents of that process that have not expired, in
    the order of the collection; it deletes the expired documents of that
    process and nothing else: the documents of other processes, expired or
    not, are all left in place. *)
Theorem process_listing_touches_its_own
    (pid : string) (env : list Env) (w : World) :
  calm env -> Mongo.unique (db w) ->
  let now := clock w in
  let w1 := snd (serve (ListByHolder pid) env w) in
  fst (serve (ListByHolder pid) env w) =
  inr (ProcessLocks
         (map process_entry
              (List.filter (fun l => Mongo.owned pid l && is_live now l)
                           (db w)))) /\
  db w1 =
  List.filter (fun l => negb (Mongo.owned pid l && is_expired now l)) (db w) /\
  of_others pid (db w1) = of_others pid (db w).
Proof.
  intros Hcalm Hu now w1. subst w1 now.
  unfold serve. cbn [route].
  rewrite (process_calm pid (mkWorld (db w) (clock w) env) Hcalm).
  cbn [fst snd db clock].
  rewrite filter_filter_and.
  rewrite (sweep_expired (clock w) (Mongo.owned pid) (db w) Hu).
  repeat split.
  unfold of_others. rewrite filter_filter_and. apply filter_ext.
  intros l.
  destruct (Mongo.owned pid l); destruct (is_expired (clock w) l);
    reflexivity.
Qed.

Lemma process_listing_touches_its_own_witness :
  let a := ResourceLockSchema.mk "log" "p1" 1 (Some 2) in
  let b := ResourceLockSchema.mk "db" "p2" 5 (Some 9) in
  let c := ResourceLockSchema.mk "tmp" "p1" 6 None in
  let w := mkWorld [a; b; c] 50 [] in
  let now := clock w in
  let w1 := snd (serve (ListByHolder "p1") [] w) in
  fst (serve (ListByHolder "p1") [] w) =
  inr (ProcessLocks
         (map process_entry
              (List.filter (fun l => Mongo.owned "p1" l && is_live now l)
                           (db w)))) /\
  db w1 =
  List.filter (fun l => negb (Mongo.owned "p1" l && is_expired now l))
              (db w) /\
  of_others "p1" (db w1) = of_others "p1" (db w).
Proof.
  intros a b c w.
  apply (process_listing_touches_its_own "p1" [] w).
  - schedule_ok.
  - repeat constructor; simpl; intuition discriminate.
Defined.

(** X7. The list of all locks, when no store call is disturbed and the
    index holds, leaves in the collection exactly the documents that have
    not expired, in their order; asked again at the same instant it gives
    the same list and deletes nothing. *)
Theorem all_locked_reclaims_the_expired
    (env env' : list Env) (w : World) :
  calm env -> calm env' -> Mongo.unique (db w) ->
  let w1 := snd (serve ListAll env w) in
  db w1 = List.filter (is_live (clock w)) (db w) /\
  serve ListAll env' w1 =
  (fst (serve ListAll env w), mkWorld (db w1) (clock w1) (tl env')).
Proof.
  intros Hcalm Hcalm' Hu w1. subst w1.
  unfold serve. cbn [route].
  rewrite (all_locked_calm (mkWorld (db w) (clock w) env) Hcalm).
  cbn [fst snd db clock].
  assert (Hsweep :
            sweep (List.filter (is_expired (clock w)) (db w)) (db w)
            = List.filter (is_live (clock w)) (db w)).
  { rewrite <- (filter_all (fun _ => true) (db w)) at 1 by reflexivity.
    rewrite (sweep_expired (clock w) (fun _ => true) (db w) Hu).
    apply filter_ext. intros l. reflexivity. }
  rewrite Hsweep. split; [reflexivity |].
  rewrite all_locked_calm by exact Hcalm'. cbn [db clock sched].
  assert (Hnone : List.filter (is_expired (clock w))
                    (List.filter (is_live (clock w)) (db w)) = []).
  { apply filter_none. intros x Hx. apply filter_In in Hx.
    destruct Hx as [_ Hx]. unfold is_live in Hx. unfold is_expired.
    now apply negb_true_iff. }
  assert (Hsame : List.filter (is_live (clock w))
                    (List.filter (is_live (clock w)) (db w))
                  = List.filter (is_live (clock w)) (db w)).
  { apply filter_all. intros x Hx. apply filter_In in Hx. tauto. }
  rewrite Hnone, Hsame. reflexivity.
Qed.

Lemma all_locked_reclaims_the_expired_witness :
  let a := ResourceLockSchema.mk "log" "p1" 1 (Some 2) in
  let b := ResourceLockSchema.mk "db" "p2" 5 (Some 50) in
  let c := ResourceLockSchema.mk "tmp" "p1" 6 None in
  let w := mkWorld [a; b; c] 50 [] in
  let w1 := snd (serve ListAll [Calm; Calm] w) in
  db w1 = List.filter (is_live (clock w)) (db w) /\
  serve ListAll [Calm] w1 =
  (fst (serve ListAll [Calm; Calm] w),
   mkWorld (db w1) (clock w1) (tl [Calm])).
Proof.
  intros a b c w.
  apply (all_locked_reclaims_the_expired [Calm; Calm] [Calm] w).
  - schedule_ok.
  - schedule_ok.
  - repeat constructor; simpl; intuition discriminate.
Defined.

(** ** Every request gets an answer *)

(** X9. A request for a lock is answered (acquired, denied, 400 or 500)
    when the index holds and no other request writes while it is served,
    store calls failing or not: the duplicate-key branch of its [catch]
    is then never taken. *)
Theorem request_is_answered_when_alone
    (R A : string) (ttl : option Z) (w : World) :
  Mongo.unique (db w) -> solo (sched w) ->
  answered (fst (post_locks_request R A ttl w)).
Proof.
  intros Hu Hs. unfold post_locks_request.
  destruct (falsy R || falsy A); [exact Logic.I |].
  unfold try_catch, bind, ResourceLock.findOne, ResourceLock.deleteOne,
    new_Date.
  assert (Hs1 : solo (tl (sched w))) by now apply solo_tl.
  assert (Hs2 : solo (tl (tl (sched w)))) by now apply solo_tl.
  destruct (await_solo
              (fun c => (inr (B := option Lock) (Mongo.lookup R c), c)) w Hs)
    as [E | E]; rewrite E; simpl; [| exact Logic.I].
  destruct (Mongo.lookup R (db w)) as [l|] eqn:Hl; simpl.
  - destruct (expired l (clock w)); simpl; [| exact Logic.I].
    match goal with
    | |- context [await ?op ?w1] =>
        destruct (await_solo op w1 Hs1) as [E1 | E1]; rewrite E1
    end; simpl; [| exact Logic.I].
    rewrite save_new.
    destruct (storable (new_lock R A ttl (clock w))); [| exact Logic.I].
    unfold ResourceLock.insertOne.
    match goal with
    | |- context [await ?op ?w2] =>
        destruct (await_solo op w2 Hs2) as [E2 | E2]; rewrite E2
    end; simpl; [| exact Logic.I].
    rewrite (insert_absent (new_lock R A ttl (clock w)))
      by (simpl; now apply unique_lookup_remove).
    exact Logic.I.
  - rewrite save_new.
    destruct (storable (new_lock R A ttl (clock w))); [| exact Logic.I].
    unfold ResourceLock.insertOne.
    match goal with
    | |- context [await ?op ?w1] =>
        destruct (await_solo op w1 Hs1) as [E1 | E1]; rewrite E1
    end; simpl; [| exact Logic.I].
    rewrite (insert_absent (new_lock R A ttl (clock w)))
      by (simpl; exact Hl).
    exact Logic.I.
Qed.

Lemma request_is_answered_when_alone_witness :
  answered
    (fst (post_locks_request "db" "p2" (Some 3)
            (mkWorld [ResourceLockSchema.mk "db" "p1" 1 (Some 2)] 5
                     [Calm; Calm; Outage]))).
Proof.
  apply (request_is_answered_when_alone "db" "p2" (Some 3)).
  - repeat constructor; simpl; intuition discriminate.
  - schedule_ok.
Defined.

(** ** A store that is down *)

(** X10. When the first store call of a request throws, every route
    answers 500 'Internal server error' (the fields being well formed) and
    makes no further store call: the collection is as it was and the rest
    of the schedule is untouched. *)
Theorem store_down_is_a_server_error
    (r : Request) (w : World) (rest : list Env) :
  well_formed r ->
  sched w = Outage :: rest ->
  route r w = (inr InternalServerError, mkWorld (db w) (clock w) rest).
Proof.
  intros Hwf Hs. destruct w as [c t s]. cbn [sched db clock] in *. subst s.
  destruct r as [name pid ttl|name pid|name| |pid]; cbn [route].
  - destruct Hwf as [Hn Hp]. unfold post_locks_request.
    now rewrite (valid_input name pid Hn Hp).
  - destruct Hwf as [Hn Hp]. unfold post_locks_release.
    now rewrite (valid_input name pid Hn Hp).
  - reflexivity.
  - reflexivity.
  - reflexivity.
Qed.

Lemma store_down_is_a_server_error_witness :
  let w := mkWorld [ResourceLockSchema.mk "db" "p1" 1 None] 5
                   [Outage; Calm] in
  route (Acquire "db" "p2" None) w =
  (inr InternalServerError, mkWorld (db w) (clock w) [Calm]).
Proof.
  intros w.
  apply (store_down_is_a_server_error (Acquire "db" "p2" None) w [Calm]).
  - split; discriminate.
  - reflexivity.
Defined.

(** ** Only a request for a lock adds a document *)

Lemma incl_env (c0 : Collection) (e : Env) (c c' : Collection) :
  solo_env e -> incl c c0 -> disturb e c = Some c' -> incl c' c0.
Proof. intros He Hc Hd. now rewrite (solo_disturb e c c' He Hd). Qed.

Lemma incl_remove (c0 : Collection) (name : string) (c : Collection) :
  True -> incl c c0 -> incl (Mongo.remove name c) c0.
Proof. intros _ Hc x Hx. apply Hc. now apply remove_incl in Hx. Qed.

(** X11. While no other request writes (store calls may fail), a release,
    a status and both listings create and modify no document: every
    document of the collection afterwards is a document that was there
    before. *)
Theorem only_requests_add_documents (r : Request) (w : World) :
  never_saves r -> solo (sched w) ->
  incl (db (snd (route r w))) (db w).
Proof.
  intros Hr Hs.
  set (J := fun c : Collection => incl c (db w)).
  assert (Hw : during solo_env J (clock w) w).
  { repeat split; [exact Hs | apply incl_refl]. }
  assert (Hinv : inv (during solo_env J (clock w)) (route r)).
  { destruct r as [name pid ttl|name pid|name| |pid]; cbn [route].
    - destruct Hr.
    - now apply (inv_post_locks_release solo_env J (incl_env (db w))
                   (or_introl eq_refl) (fun _ => True) (incl_remove (db w))).
    - now apply (inv_get_locks_status solo_env J (incl_env (db w))
                   (or_introl eq_refl) (fun _ => True) (incl_remove (db w))).
    - unfold get_locks_all_locked.
      inv_walk;
        try (apply inv_await;
             [exact (incl_env (db w)) | now left | trivial]).
      now apply (inv_filter_out_expired solo_env J (incl_env (db w))
                   (or_introl eq_refl) (fun _ => True) (incl_remove (db w))).
    - unfold get_locks_process.
      inv_walk;
        try (apply inv_await;
             [exact (incl_env (db w)) | now left | trivial]).
      now apply (inv_filter_out_expired solo_env J (incl_env (db w))
                   (or_introl eq_refl) (fun _ => True) (incl_remove (db w))). }
  destruct (Hinv w Hw) as (_ & _ & Hincl). exact Hincl.
Qed.

Lemma only_requests_add_documents_witness :
  let a := ResourceLockSchema.mk "log" "p1" 1 (Some 2) in
  let b := ResourceLockSchema.mk "db" "p2" 5 None in
  let w := mkWorld [a; b] 50 [Calm; Outage] in
  incl (db (snd (route ListAll w))) (db w).
Proof.
  intros a b w.
  apply (only_requests_add_documents ListAll w).
  - exact Logic.I.
  - schedule_ok.
Defined.

(** ** What an answer to a request for a lock tells *)

(** X12. Whatever the store and the other requests do while it is served,
    a request for a lock that is answered with status 200 is answered
    'acquired' with its own [resource_name] and [process_id_str], and its
    lock, stamped with the time of the request, is at that moment the
    document of the resource: the insert is its last store call. *)
Theorem acquired_means_stored
    (name pid : string) (ttl : option Z) (w w1 : World) (r : Response) :
  post_locks_request name pid ttl w = (inr r, w1) ->
  http_status r = 200 ->
  r = Acquired name pid /\
  Mongo.lookup name (db w1) = Some (new_lock name pid ttl (clock w)) /\
  clock w1 = clock w.
Proof.
  intros Hrun Hst.
  destruct (acquired_is_stored name pid ttl w w1 r Hrun Hst) as [Hr Hl].
  repeat split; [exact Hr | exact Hl |].
  change w1 with (snd (inr (A := exn) r, w1)). rewrite <- Hrun.
  apply (route_clock (Acquire name pid ttl) w).
Qed.

Lemma acquired_means_stored_witness :
  let old := ResourceLockSchema.mk "db" "p0" 0 (Some 5) in
  let w := mkWorld [old] 10
             [Rival [Save (ResourceLockSchema.mk "log" "p1" 3 None)];
              Calm; Rival [Delete "log"]] in
  let w1 := snd (post_locks_request "db" "p2" (Some 1) w) in
  Acquired "db" "p2" = Acquired "db" "p2" /\
  Mongo.lookup "db" (db w1) = Some (new_lock "db" "p2" (Some 1) (clock w)) /\
  clock w1 = clock w.
Proof.
  intros old w w1.
  apply (acquired_means_stored "db" "p2" (Some 1) w w1 (Acquired "db" "p2")).
  - reflexivity.
  - reflexivity.
Defined.

(** X13. A request answered 500 has stored no lock, when the index holds
    and no other request writes meanwhile: the collection is as it was, or
    it has lost the expired document of the resource, deleted before the
    call that failed. *)
Theorem failed_request_stores_nothing
    (R A : string) (ttl : option Z) (w : World) :
  Mongo.unique (db w) -> solo (sched w) ->
  fst (post_locks_request R A ttl w) = inr InternalServerError ->
  db (snd (post_locks_request R A ttl w)) = db w \/
  (db (snd (post_locks_request R A ttl w)) = others R (db w) /\
   exists l, Mongo.lookup R (db w) = Some l /\ expired l (clock w) = true).
Proof.
  intros Hu Hs. unfold post_locks_request.
  destruct (falsy R || falsy A); [discriminate |].
  unfold try_catch, bind, ResourceLock.findOne, ResourceLock.deleteOne,
    new_Date.
  assert (Hs1 : solo (tl (sched w))) by now apply solo_tl.
  assert (Hs2 : solo (tl (tl (sched w)))) by now apply solo_tl.
  destruct (await_solo
              (fun c => (inr (B := option Lock) (Mongo.lookup R c), c)) w Hs)
    as [E | E]; rewrite E; simpl; [| now left].
  destruct (Mongo.lookup R (db w)) as [l|] eqn:Hl; simpl.
  - destruct (expired l (clock w)) eqn:He; simpl; [| discriminate].
    match goal with
    | |- context [await ?op ?w1] =>
        destruct (await_solo op w1 Hs1) as [E1 | E1]; rewrite E1
    end; simpl; [| now left].
    rewrite save_new.
    destruct (storable (new_lock R A ttl (clock w)));
      [| simpl; intros _; right; split;
         [now apply remove_unique | exists l; now split]].
    unfold ResourceLock.insertOne.
    match goal with
    | |- context [await ?op ?w2] =>
        destruct (await_solo op w2 Hs2) as [E2 | E2]; rewrite E2
    end; simpl.
    + rewrite (insert_absent (new_lock R A ttl (clock w)))
        by (simpl; now apply unique_lookup_remove).
      discriminate.
    + intros _. right. split; [now apply remove_unique |].
      exists l. now split.
  - rewrite save_new.
    destruct (storable (new_lock R A ttl (clock w)));
      [| simpl; now left].
    unfold ResourceLock.insertOne.
    match goal with
    | |- context [await ?op ?w1] =>
        destruct (await_solo op w1 Hs1) as [E1 | E1]; rewrite E1
    end; simpl; [| now left].
    rewrite (insert_absent (new_lock R A ttl (clock w)))
      by (simpl; exact Hl).
    discriminate.
Qed.

Lemma failed_request_stores_nothing_witness :
  let old := ResourceLockSchema.mk "db" "p0" 0 (Some 5) in
  let a := ResourceLockSchema.mk "log" "p1" 3 None in
  let w := mkWorld [old; a] 10 [Calm; Calm; Outage] in
  db (snd (post_locks_request "db" "p2" None w)) = db w \/
  (db (snd (post_locks_request "db" "p2" None w)) = others "db" (db w) /\
   exists l, Mongo.lookup "db" (db w) = Some l /\ expired l (clock w) = true).
Proof.
  intros old a w.
  apply (failed_request_stores_nothing "db" "p2" None w).
  - repeat constructor; simpl; intuition discriminate.
  - schedule_ok.
  - reflexivity.
Defined.

(** ** Races around the insert and the delete *)

(** X14. A request that found no document for the resource, whose own
    document passes validation (its dates are valid), and before whose
    insert other requests wrote so that the resource has a document, has
    its insert refused by the index (E11000); it reads the document again
    and is answered 409 'denied' with the holder of that document; it has
    written nothing itself. *)
Theorem request_that_loses_the_race_is_denied
    (R B : string) (ttl : option Z) (l : Lock) (ws : list Write)
    (w : World) (s : list Env) :
  R <> EmptyString -> B <> EmptyString ->
  Mongo.lookup R (db w) = None ->
  Mongo.lookup R (fold_left (fun c x => write x c) ws (db w)) = Some l ->
  storable (new_lock R B ttl (clock w)) = true ->
  sched w = Calm :: Rival ws :: Calm :: s ->
  post_locks_request R B ttl w =
  (inr (Denied R (ResourceLockSchema.process_id_str l)),
   mkWorld (fold_left (fun c x => write x c) ws (db w)) (clock w) s).
Proof.
  intros HR HB Hnone Hl Hst Hs.
  unfold post_locks_request. rewrite (valid_input R B HR HB).
  unfold try_catch, bind, ResourceLock.findOne.
  rewrite (await_Calm _ w _ Hs). simpl. rewrite Hnone.
  unfold new_Date. simpl.
  rewrite save_new, Hst. unfold ResourceLock.insertOne.
  unfold await at 1. simpl.
  rewrite (insert_present _ l) by exact Hl. simpl.
  unfold await. simpl. now rewrite Hl.
Qed.

Lemma request_that_loses_the_race_is_denied_witness :
  let win := ResourceLockSchema.mk "db" "p1" 7 None in
  let ws := [Save (ResourceLockSchema.mk "log" "p3" 7 None); Save win] in
  let w := mkWorld [] 7 [Calm; Rival ws; Calm] in
  post_locks_request "db" "p2" (Some 5) w =
  (inr (Denied "db" "p1"),
   mkWorld (fold_left (fun c x => write x c) ws (db w)) (clock w) []).
Proof.
  intros win ws w.
  apply (request_that_loses_the_race_is_denied "db" "p2" (Some 5) win ws w []).
  - discriminate.
  - discriminate.
  - reflexivity.
  - reflexivity.
  - reflexivity.
  - reflexivity.
Defined.

(** X15. The release does not look at what its [deleteOne] did.  When the
    holder's release has read its lease, whatever other requests write
    before the delete is served (the lease may be gone, or replaced by the
    lock of another process), the release is answered 'released' and the
    document that then bears the name, if any, is deleted. *)
Theorem release_ignores_what_it_deletes
    (R A : string) (l : Lock) (ws : list Write) (w : World)
    (rest : list Env) :
  R <> EmptyString -> A <> EmptyString ->
  Mongo.lookup R (db w) = Some l ->
  ResourceLockSchema.process_id_str l = A ->
  sched w = Calm :: Rival ws :: rest ->
  post_locks_release R A w =
  (inr (Released R),
   mkWorld (Mongo.remove R (fold_left (fun c x => write x c) ws (db w)))
           (clock w) rest).
Proof.
  intros HR HA Hl Hpid Hs.
  unfold post_locks_release. rewrite (valid_input R A HR HA).
  unfold try_catch, bind, ResourceLock.findOne, ResourceLock.deleteOne.
  rewrite (await_Calm _ w _ Hs). simpl.
  rewrite Hl, Hpid, String.eqb_refl. simpl.
  reflexivity.
Qed.

Lemma release_ignores_what_it_deletes_witness :
  let mine := ResourceLockSchema.mk "db" "p1" 1 (Some 5) in
  let theirs := ResourceLockSchema.mk "db" "p2" 9 None in
  let w := mkWorld [mine] 9
             [Calm; Rival [Delete "db"; Save theirs]; Calm] in
  post_locks_release "db" "p1" w =
  (inr (Released "db"),
   mkWorld (Mongo.remove "db"
              (fold_left (fun c x => write x c)
                         [Delete "db"; Save theirs] (db w)))
           (clock w) [Calm]).
Proof.
  intros mine theirs w.
  apply (release_ignores_what_it_deletes "db" "p1" mine
           [Delete "db"; Save theirs] w [Calm]).
  - discriminate.
  - discriminate.
  - reflexivity.
  - reflexivity.
  - reflexivity.
Defined.

(** ** Dates that cannot be stored *)

(** X17. A request for a free resource whose dates are not valid (with the
    clock in range: a [ttl_seconds] that puts the expiry outside the range
    of a [Date]) is answered 500: [save()] refuses the document before any
    insert, so the only store call is the first read and the collection is
    unchanged. *)
Theorem invalid_dates_are_refused
    (R A : string) (ttl : option Z) (w : World) :
  R <> EmptyString -> A <> EmptyString ->
  calm (sched w) ->
  Mongo.lookup R (db w) = None ->
  storable (new_lock R A ttl (clock w)) = false ->
  post_locks_request R A ttl w =
  (inr InternalServerError, mkWorld (db w) (clock w) (tl (sched w))).
Proof.
  intros HR HA Hcalm Hl Hst.
  unfold post_locks_request. rewrite (valid_input R A HR HA).
  unfold try_catch, bind, ResourceLock.findOne.
  rewrite (await_calm _ w Hcalm). simpl.
  rewrite Hl. unfold new_Date. simpl.
  rewrite save_new, Hst. reflexivity.
Qed.

Lemma invalid_dates_are_refused_witness :
  let a := ResourceLockSchema.mk "log" "p1" 1 None in
  let w := mkWorld [a] 1700000000000 [Calm; Calm] in
  post_locks_request "db" "p2" (Some 8640000000001) w =
  (inr InternalServerError, mkWorld [a] 1700000000000 [Calm]).
Proof.
  intros a w.
  apply (invalid_dates_are_refused "db" "p2" (Some 8640000000001) w).
  - discriminate.
  - discriminate.
  - schedule_ok.
  - reflexivity.
  - reflexivity.
Defined.
